(** * concurrentmap: a map guarded by one reader/writer mutex

    Shallow embedding of [concurrentmap/concurrentmap.go] and the
    sequential (single goroutine) properties of its methods.

    - The Go field [items map[interface{}]interface{}] is a [gmap K V] over
      a key type with decidable equality (Go's comparable dynamic values
      whose [==] is reflexive) and an arbitrary value type [V] with the
      zero value [zero_value] (Go's [nil] interface).
    - The field [mu sync.RWMutex] is modelled by its sequential behaviour:
      how many read locks are held and whether the write lock is held.  A
      lock request that cannot be granted parks the only goroutine for
      ever ([Blocked]).
    - Methods run in a state-and-failure monad over a [world]: the [Map]
      the receiver points to and the environment [U] captured by the
      closures handed to [ComputeIfAbsent] and [Range].  A closure acts on
      its own environment, returns or panics, and does not call back into
      the map.
    - [for ... range m.items] enumerates the entries in an order chosen by
      the Go runtime for that loop; every loop takes its [range_order].
    - The [gmap] embedding covers the keys a Go map finds again.  The
      module [anykey] embeds the same source over every [interface{}] key:
      it adds the keys with [key != key] (a NaN), under which entries pile
      up, and the keys that cannot be hashed (a slice), on which every map
      operation panics.  [anykey_agrees_on_plain_keys] shows that the two
      embeddings agree on the keys with [key == key]. *)

From stdpp Require Import gmap strings list fin_maps.
From Stdlib Require Import ZArith.

(** ** sync.RWMutex, seen by one goroutine *)
Module sync.

Record RWMutex : Type := mkRWMutex {
  readerCount : nat;   (* read locks currently held *)
  writerHeld : bool    (* the write lock is held *)
}.

(** The zero value of a [sync.RWMutex] is an unlocked mutex. *)
Definition zero : RWMutex := mkRWMutex 0 false.

(** Result of a lock request: granted, or the caller parks. *)
Inductive acquire : Type :=
| Acquired (mu : RWMutex)
| Parked.

Definition RLock (mu : RWMutex) : acquire :=
  if writerHeld mu then Parked
  else Acquired (mkRWMutex (S (readerCount mu)) false).

(** [None]: "sync: RUnlock of unlocked RWMutex", a fatal runtime error. *)
Definition RUnlock (mu : RWMutex) : option RWMutex :=
  match readerCount mu with
  | O => None
  | S n => Some (mkRWMutex n (writerHeld mu))
  end.

Definition Lock (mu : RWMutex) : acquire :=
  if writerHeld mu then Parked
  else match readerCount mu with
       | O => Acquired (mkRWMutex 0 true)
       | S _ => Parked
       end.

(** [None]: "sync: Unlock of unlocked RWMutex", a fatal runtime error. *)
Definition Unlock (mu : RWMutex) : option RWMutex :=
  if writerHeld mu then Some (mkRWMutex (readerCount mu) false) else None.

End sync.

(** ** package concurrentmap *)
Module concurrentmap.

(** Every Go type has a zero value; for [interface{}] it is [nil]. *)
Class Zero (V : Type) : Type := zero_value : V.

Section Map.

Context {K : Type} `{Countable K} {V : Type} `{Zero V} {E : Type}.

(** [type Map struct { items map[interface{}]interface{}; mu sync.RWMutex }] *)
Record Map : Type := mkMap {
  items : gmap K V;
  mu : sync.RWMutex
}.

(** What the program can see: the [Map] behind the receiver [m] and the
    variables [U] captured by the caller's closures. *)
Record world (U : Type) : Type := mkWorld {
  this : Map;
  env : U
}.
Arguments mkWorld {U} _ _.
Arguments this {U} _.
Arguments env {U} _.

(** How a call ends. *)
Inductive outcome (A : Type) : Type :=
| Ret (a : A)      (* returns [a] *)
| Panic (e : E)    (* a panic with value [e] unwinds to the caller *)
| Blocked          (* parked on the mutex for ever *)
| Fatal.           (* fatal runtime error (unlock of an unlocked mutex) *)
Arguments Ret {A} _.
Arguments Panic {A} _.
Arguments Blocked {A}.
Arguments Fatal {A}.

Definition prog (U A : Type) : Type := world U → outcome A * world U.

#[global] Instance prog_ret {U} : MRet (prog U) :=
  λ A a w, (Ret a, w).

#[global] Instance prog_bind {U} : MBind (prog U) :=
  λ A B k c w,
    match c w with
    | (Ret a, w') => k a w'
    | (Panic e, w') => (Panic e, w')
    | (Blocked, w') => (Blocked, w')
    | (Fatal, w') => (Fatal, w')
    end.

(** How a closure ends: it returns a value or panics. *)
Inductive completion (A : Type) : Type :=
| Returns (a : A)
| Panics (e : E).
Arguments Returns {A} _.
Arguments Panics {A} _.

(** A closure producing an [A], acting on its captured variables. *)
Definition closure (U A : Type) : Type := U → completion A * U.

(** Calling a closure from a method. *)
Definition invoke {U A} (c : closure U A) : prog U A :=
  λ w, let '(r, u') := c (env w) in
       (match r with Returns a => Ret a | Panics e => Panic e end,
        mkWorld (this w) u').

(** *** Accesses to the fields of [m] *)

Definition read_items {U} : prog U (gmap K V) :=
  λ w, (Ret (items (this w)), w).

Definition write_items {U} (g : gmap K V) : prog U unit :=
  λ w, (Ret tt, mkWorld (mkMap g (mu (this w))) (env w)).

Definition acquiring {U} (request : sync.RWMutex → sync.acquire) : prog U unit :=
  λ w, match request (mu (this w)) with
       | sync.Acquired mu' => (Ret tt, mkWorld (mkMap (items (this w)) mu') (env w))
       | sync.Parked => (Blocked, w)
       end.

Definition releasing {U} (release : sync.RWMutex → option sync.RWMutex) : prog U unit :=
  λ w, match release (mu (this w)) with
       | Some mu' => (Ret tt, mkWorld (mkMap (items (this w)) mu') (env w))
       | None => (Fatal, w)
       end.

Definition mu_RLock {U} : prog U unit := acquiring sync.RLock.
Definition mu_RUnlock {U} : prog U unit := releasing sync.RUnlock.
Definition mu_Lock {U} : prog U unit := acquiring sync.Lock.
Definition mu_Unlock {U} : prog U unit := releasing sync.Unlock.

(** [defer d] followed by the rest of the function body: [d] runs when the
    body returns and also when it panics. *)
Definition deferring {U A} (d : prog U unit) (body : prog U A) : prog U A :=
  λ w, match body w with
       | (Ret a, w') => (_ ← d; mret a) w'
       | (Panic e, w') =>
           match d w' with
           | (Ret _, w'') => (Panic e, w'')
           | (Panic e', w'') => (Panic e', w'')
           | (Blocked, w'') => (Blocked, w'')
           | (Fatal, w'') => (Fatal, w'')
           end
       | (Blocked, w') => (Blocked, w')
       | (Fatal, w') => (Fatal, w')
       end.

(** The two-valued index expression [value, found = items[key]], for a key
    with [key == key]; [anykey.index] is the expression for every key. *)
Definition index (g : gmap K V) (key : K) : V * bool :=
  match g !! key with
  | Some value => (value, true)
  | None => (zero_value, false)
  end.

(** The order in which one [range] loop enumerates a map: any enumeration
    of its entries, each entry once. *)
Record range_order : Type := mkOrder {
  enum :> gmap K V → list (K * V);
  enum_perm : ∀ g, enum g ≡ₚ map_to_list g
}.

(** Two enumerations a loop may follow: the map's entries in the order of
    their hashes, and the same entries from the other end. *)
Definition forwards : range_order :=
  mkOrder map_to_list (λ g, reflexivity (map_to_list g)).

Definition backwards : range_order :=
  mkOrder (λ g, reverse (map_to_list g)) (λ g, reverse_Permutation (map_to_list g)).

(** *** The methods *)

(** [func New() *Map] *)
Definition New : Map := mkMap ∅ sync.zero.

(** The loop of [Range]: [if !action(key, value) { break }]. *)
Fixpoint range_loop {U} (action : K → V → closure U bool)
    (entries : list (K * V)) : prog U unit :=
  match entries with
  | [] => mret tt
  | (key, value) :: rest =>
      continue ← invoke (action key value);
      if negb continue then mret tt else range_loop action rest
  end.

(** [func (m *Map) Range(action func(key, value interface{}) bool)] *)
Definition Range {U} (order : range_order) (action : K → V → closure U bool)
    : prog U unit :=
  mu_RLock;;
  g ← read_items;
  range_loop action (order g);;
  mu_RUnlock.

(** [func (m *Map) Values() []interface{}] *)
Definition Values {U} (order : range_order) : prog U (list V) :=
  let result := [] in
  mu_RLock;;
  g ← read_items;
  let result := foldl (λ result entry, result ++ [entry.2]) result (order g) in
  mu_RUnlock;;
  mret result.

(** [func (m *Map) Keys() []interface{}] *)
Definition Keys {U} (order : range_order) : prog U (list K) :=
  let result := [] in
  mu_RLock;;
  g ← read_items;
  let result := foldl (λ result entry, result ++ [entry.1]) result (order g) in
  mu_RUnlock;;
  mret result.

(** [func (m *Map) Get(key interface{}) (value interface{}, found bool)] *)
Definition Get {U} (key : K) : prog U (V * bool) :=
  mu_RLock;;
  g ← read_items;
  let '(value, found) := index g key in
  mu_RUnlock;;
  mret (value, found).

(** [func (m *Map) Contains(key interface{}) bool] *)
Definition Contains {U} (key : K) : prog U bool :=
  '(_, found) ← Get key;
  mret found.

(** [func (m *Map) Put(key interface{}, value interface{}) interface{}], for
    a key with [key == key]; [anykey.Put] is the method for every key. *)
Definition Put {U} (key : K) (value : V) : prog U V :=
  mu_Lock;;
  g ← read_items;
  write_items (<[key := value]> g);;
  mu_Unlock;;
  mret value.

(** [func (m *Map) ComputeIfAbsent(key, compFunction) (value, computed bool)] *)
Definition ComputeIfAbsent {U} (key : K) (compFunction : K → closure U V)
    : prog U (V * bool) :=
  '(value, found) ← Get key;
  value ← (if negb found
           then computed ← invoke (compFunction key); Put key computed
           else mret value);
  mret (value, negb found).

(** [func (m *Map) Remove(key interface{}) (found bool)] *)
Definition Remove {U} (key : K) : prog U bool :=
  '(_, found) ← Get key;
  if found : bool
  then mu_Lock;;
       g ← read_items;
       write_items (delete key g);;
       deferring mu_Unlock (mret found)
  else mret found.

(** [func (m *Map) Size() (size int)]; the length of a map fits an [int]. *)
Definition Size {U} : prog U Z :=
  mu_RLock;;
  g ← read_items;
  let size := Z.of_nat (size (g : gmap K V)) in
  mu_RUnlock;;
  mret size.

(** [func (m *Map) Clear()]: [m.items = nil], then [m.items = make(...)];
    a nil map reads as the empty map. *)
Definition Clear {U} : prog U unit :=
  mu_Lock;;
  write_items ∅;;
  write_items ∅;;
  mu_Unlock.

End Map.

Arguments Map K {_ _} V.
Arguments world K {_ _} V U.
Arguments mkWorld {K _ _ V U} _ _.
Arguments this {K _ _ V U} _.
Arguments env {K _ _ V U} _.
Arguments outcome E A : clear implicits.
Arguments Ret {E A} _.
Arguments Panic {E A} _.
Arguments Blocked {E A}.
Arguments Fatal {E A}.
Arguments completion E A : clear implicits.
Arguments Returns {E A} _.
Arguments Panics {E A} _.
Arguments closure E U A : clear implicits.
Arguments range_order K {_ _} V.

(** ** Observing the calls of a closure *)

(** The result of a call seen through [f], failures kept. *)
Definition outcome_map {E A B : Type} (f : A → B) (r : outcome E A) : outcome E B :=
  match r with
  | Ret a => Ret (f a)
  | Panic e => Panic e
  | Blocked => Blocked
  | Fatal => Fatal
  end.

(** [recording input c] behaves as the closure [c] and appends, to a list
    kept next to [c]'s variables, the [input] it was called on and how the
    call ended.  The list is only written, never read: it is the history of
    the calls made to the closure. *)
Definition recording {E U A I : Type} (input : I) (c : closure E U A)
    : closure E (U * list (I * completion E A)) A :=
  λ '(u, calls), let '(r, u') := c u in (r, (u', calls ++ [(input, r)])).

(** ** Sequences of calls made by one goroutine *)

Section Sequences.

Context {K : Type} `{Countable K} {V : Type} `{Zero V} {E U : Type}.

(** One call of a method of [m], with its arguments. *)
Inductive op : Type :=
| OpRange (order : range_order K V) (action : K → V → closure E U bool)
| OpValues (order : range_order K V)
| OpKeys (order : range_order K V)
| OpGet (key : K)
| OpContains (key : K)
| OpPut (key : K) (value : V)
| OpComputeIfAbsent (key : K) (compFunction : K → closure E U V)
| OpRemove (key : K)
| OpSize
| OpClear.

(** Making the call and dropping what it returns. *)
Definition call (o : op) : prog U unit :=
  match o with
  | OpRange order action => Range order action
  | OpValues order => Values order;; mret tt
  | OpKeys order => Keys order;; mret tt
  | OpGet key => Get key;; mret tt
  | OpContains key => Contains key;; mret tt
  | OpPut key value => Put key value;; mret tt
  | OpComputeIfAbsent key compFunction => ComputeIfAbsent key compFunction;; mret tt
  | OpRemove key => Remove key;; mret tt
  | OpSize => Size;; mret tt
  | OpClear => Clear
  end.

(** The calls of [ops] one after the other; a call that does not return
    ends the sequence. *)
Fixpoint run (ops : list op) : prog U unit :=
  match ops with
  | [] => mret tt
  | o :: rest => call o;; run rest
  end.

(** C5 as the specification words it: the keys that have been put, by [Put]
    or by the [Put] inside [ComputeIfAbsent], and not removed afterwards. *)
Definition put_not_removed (ops : list op) : gset K :=
  foldl (λ keys o,
           match o with
           | OpPut key _ | OpComputeIfAbsent key _ => {[key]} ∪ keys
           | OpRemove key => keys ∖ {[key]}
           | _ => keys
           end) ∅ ops.

(** The same count where [Clear] also drops every key put before it. *)
Definition track (keys : gset K) (o : op) : gset K :=
  match o with
  | OpPut key _ | OpComputeIfAbsent key _ => {[key]} ∪ keys
  | OpRemove key => keys ∖ {[key]}
  | OpClear => ∅
  | _ => keys
  end.

Definition live_keys (ops : list op) : gset K := foldl track ∅ ops.

(** The call puts [key]; the call drops [key] if the map holds it. *)
Definition puts (o : op) (key : K) : Prop :=
  match o with
  | OpPut k _ | OpComputeIfAbsent k _ => k = key
  | _ => False
  end.

Definition drops (o : op) (key : K) : Prop :=
  match o with
  | OpRemove k => k = key
  | OpClear => True
  | _ => False
  end.

(** C5 as stated, for the calls [ops] made on a new map. *)
Definition Size_is_put_not_removed (ops : list op) (u : U) : Prop :=
  ∀ w, run ops (mkWorld New u) = (Ret tt, w) →
       Size (E:=E) w = (Ret (Z.of_nat (size (put_not_removed ops))), w).

(** The closures of a call return whatever they are called on. *)
Definition closures_return (o : op) : Prop :=
  match o with
  | OpRange _ action => ∀ k v u, ∃ continue u', action k v u = (Returns continue, u')
  | OpComputeIfAbsent _ compFunction => ∀ k u, ∃ value u', compFunction k u = (Returns value, u')
  | _ => True
  end.

End Sequences.

Arguments op K {_ _} V E U.

(** ** Go values for the examples *)

(** Some dynamic values of type [interface{}]. *)
Inductive any : Type :=
| Nil
| Int (n : Z)
| Str (s : string).

#[global] Instance any_eq_dec : EqDecision any.
Proof. solve_decision. Defined.

#[global] Instance any_countable : Countable any.
Proof.
  refine (inj_countable'
    (λ a, match a with Nil => inl () | Int n => inr (inl n) | Str s => inr (inr s) end)
    (λ x, match x with inl _ => Nil | inr (inl n) => Int n | inr (inr s) => Str s end)
    _).
  by intros [].
Defined.

#[global] Instance any_zero : Zero any := Nil.

(** The map of the specification's example after [Put("a", 1)] and
    [Put("b", 2)], mutex free; the caller has no closure variables. *)
Definition ab_items : gmap any any := <[Str "b" := Int 2]> (<[Str "a" := Int 1]> ∅).

Definition ab_world : world any any unit := mkWorld (mkMap ab_items sync.zero) tt.

(** The same map seen by a caller whose closures share a counter. *)
Definition ab_counting : world any any nat := mkWorld (mkMap ab_items sync.zero) 0.

(** A compute function that numbers the values it makes, one that
    panics, and an action that counts its calls and stops at key ["b"]. *)
Definition numbering : any → closure string nat any :=
  λ _ n, (Returns (Int (Z.of_nat n)), S n).

Definition refusing : any → closure string nat any :=
  λ _ n, (Panics "no value", n).

Definition until_b : any → any → closure string nat bool :=
  λ key _ n, (Returns (bool_decide (key ≠ Str "b")), S n).

(** The calls of the specification's example, up to its second [Size()]. *)
Definition example_calls : list (op any any string unit) :=
  [OpPut (Str "a") (Int 1); OpPut (Str "b") (Int 2); OpSize;
   OpGet (Str "a"); OpRemove (Str "a"); OpSize].

Definition put_then_clear : list (op any any string unit) :=
  [OpPut (Str "a") (Int 1); OpClear].

(** ** Vocabulary of the properties *)

Section Vocabulary.

Context {K : Type} `{Countable K} {V : Type} {E U : Type}.

(** No lock of [m.mu] is held: the state between two calls of one goroutine. *)
Definition unlocked (w : world K V U) : Prop := mu (this w) = sync.zero.

(** The world where [m.items] holds [g]; lock and closure variables as in [w]. *)
Definition with_items (g : gmap K V) (w : world K V U) : world K V U :=
  mkWorld (mkMap g (mu (this w))) (env w).

(** The world where the closures' variables are [u]; the map as in [w]. *)
Definition with_env {U' : Type} (u : U') (w : world K V U) : world K V U' :=
  mkWorld (this w) u.

(** C6 as the specification words it: the key and the value returned at
    the same index belong to one entry of the map [g]. *)
Definition elementwise (g : gmap K V) (ks : list K) (vs : list V) : Prop :=
  ∀ i k v, ks !! i = Some k → vs !! i = Some v → g !! k = Some v.

(** C6 as stated, for one call of [Keys] and one call of [Values]. *)
Definition Keys_Values_correspond (order_k order_v : range_order K V)
    (w : world K V U) : Prop :=
  ∃ ks vs,
    Keys order_k w = (Ret (E:=E) ks, w) ∧
    Values order_v w = (Ret (E:=E) vs, w) ∧
    Size w = (Ret (E:=E) (Z.of_nat (length ks)), w) ∧
    length ks = length vs ∧
    elementwise (items (this w)) ks vs.

End Vocabulary.

(** ** Vocabulary of the locking discipline *)

Section Discipline.

Context {K : Type} `{Countable K} {V : Type} {E U : Type}.

(** Read locks of [m.mu] are held and the write lock is not: the state in
    which the action of [Range] runs. *)
Definition read_locked (w : world K V U) : Prop :=
  sync.writerHeld (mu (this w)) = false ∧ 0 < sync.readerCount (mu (this w)).

(** The write lock of [m.mu] is held. *)
Definition write_locked (w : world K V U) : Prop :=
  sync.writerHeld (mu (this w)) = true.

(** The calls whose body assigns to [m.items] or to one of its entries. *)
Definition writes (o : op K V E U) : bool :=
  match o with
  | OpPut _ _ | OpComputeIfAbsent _ _ | OpRemove _ | OpClear => true
  | _ => false
  end.

(** The calls that are handed a closure. *)
Definition takes_closure (o : op K V E U) : bool :=
  match o with
  | OpRange _ _ | OpComputeIfAbsent _ _ => true
  | _ => false
  end.

End Discipline.

(** The example map while a read lock is held, and while the write lock is
    held. *)
Definition ab_read_locked : world any any nat :=
  mkWorld (mkMap ab_items (sync.mkRWMutex 1 false)) 0.

Definition ab_write_locked : world any any nat :=
  mkWorld (mkMap ab_items (sync.mkRWMutex 0 true)) 0.

(** An action that panics on key ["b"] and counts its other calls. *)
Definition failing_on_b : any → any → closure string nat bool :=
  λ key _ n,
    if bool_decide (key = Str "b") then (Panics "b", n) else (Returns true, S n).

(** ** The map over every dynamic key *)

(** The definitions above take a key up to [==] and cover the keys that a
    Go map finds again: hashable values with [key == key].  A
    [map[interface{}]interface{}] accepts two more kinds of key, and
    [anykey] embeds the same source over all three:
    - a hashable value with [key == key], such as an integer or a string;
    - a hashable value with [key != key]: a floating point NaN, or a struct
      or an array that holds one.  Such a value is [==] to no value, so no
      lookup finds it, no [delete] removes it and every assignment adds an
      entry;
    - a value whose dynamic type cannot be hashed (a slice, a map, a
      function, or a value holding one): every map operation on it panics
      with a runtime error. *)
Module anykey.

Inductive dynamic (K F X : Type) : Type :=
| Plain (k : K)         (* hashable, [k == k]; [k] is taken up to [==] *)
| Irreflexive (f : F)   (* hashable, [f != f] *)
| Unhashable (x : X).   (* hashing [x] panics *)
Arguments Plain {K F X} _.
Arguments Irreflexive {K F X} _.
Arguments Unhashable {K F X} _.

(** What a panic carries: the value a closure panicked with, or the
    runtime error "hash of unhashable type". *)
Inductive panic (E X : Type) : Type :=
| Raised (e : E)
| HashOfUnhashable (x : X).
Arguments Raised {E X} _.
Arguments HashOfUnhashable {E X} _.

Section Map.

Context {K : Type} `{Countable K} {F X V : Type} `{Zero V} {E : Type}.

(** [key == key] evaluates to [true]. *)
Definition self_equal (key : dynamic K F X) : bool :=
  match key with
  | Plain _ => true
  | Irreflexive _ | Unhashable _ => false
  end.

(** The dynamic type of [key] can be hashed. *)
Definition hashable (key : dynamic K F X) : bool :=
  match key with
  | Plain _ | Irreflexive _ => true
  | Unhashable _ => false
  end.

(** [key1 == key2], for keys that can be hashed. *)
Definition go_equal (key1 key2 : dynamic K F X) : bool :=
  match key1, key2 with
  | Plain k1, Plain k2 => bool_decide (k1 = k2)
  | _, _ => false
  end.

(** The keys with [key == key] among [keys]. *)
Definition plain_keys (keys : list (dynamic K F X)) : list K :=
  omap (λ key, match key with Plain k => Some k | _ => None end) keys.

(** The value of a [map[interface{}]interface{}]: the entries under keys
    with [key == key], one for each key, and the entries under keys with
    [key != key], any number of them. *)
Record gomap : Type := mkGomap {
  plain : gmap K V;
  irreflexive : list (F * V)
}.

(** A map operation hashes its key first. *)
Inductive access (A : Type) : Type :=
| Done (a : A)
| Unhashed (x : X).
Arguments Done {A} _.
Arguments Unhashed {A} _.

(** [g[key]] *)
Definition lookup (g : gomap) (key : dynamic K F X) : access (option V) :=
  match key with
  | Plain k => Done (plain g !! k)
  | Irreflexive _ => Done None
  | Unhashable x => Unhashed x
  end.

(** [g[key] = value] *)
Definition assign (g : gomap) (key : dynamic K F X) (value : V) : access gomap :=
  match key with
  | Plain k => Done (mkGomap (<[k := value]> (plain g)) (irreflexive g))
  | Irreflexive f => Done (mkGomap (plain g) (irreflexive g ++ [(f, value)]))
  | Unhashable x => Unhashed x
  end.

(** [delete(g, key)] *)
Definition delete_key (g : gomap) (key : dynamic K F X) : access gomap :=
  match key with
  | Plain k => Done (mkGomap (delete k (plain g)) (irreflexive g))
  | Irreflexive _ => Done g
  | Unhashable x => Unhashed x
  end.

(** [len(g)] *)
Definition len (g : gomap) : nat := size (plain g) + length (irreflexive g).

(** The entries of [g], each once. *)
Definition entries (g : gomap) : list (dynamic K F X * V) :=
  (prod_map Plain id <$> map_to_list (plain g)) ++
  (prod_map Irreflexive id <$> irreflexive g).

(** [make(map[interface{}]interface{})] *)
Definition make : gomap := mkGomap ∅ [].

(** [type Map struct { items map[interface{}]interface{}; mu sync.RWMutex }] *)
Record Map : Type := mkMap {
  items : gomap;
  mu : sync.RWMutex
}.

Record world (U : Type) : Type := mkWorld {
  this : Map;
  env : U
}.
Arguments mkWorld {U} _ _.
Arguments this {U} _.
Arguments env {U} _.

Definition prog (U A : Type) : Type :=
  world U → outcome (panic E X) A * world U.

#[global] Instance prog_ret {U} : MRet (prog U) :=
  λ A a w, (Ret a, w).

#[global] Instance prog_bind {U} : MBind (prog U) :=
  λ A B k c w,
    match c w with
    | (Ret a, w') => k a w'
    | (Panic e, w') => (Panic e, w')
    | (Blocked, w') => (Blocked, w')
    | (Fatal, w') => (Fatal, w')
    end.

(** Calling a closure from a method. *)
Definition invoke {U A} (c : closure E U A) : prog U A :=
  λ w, let '(r, u') := c (env w) in
       (match r with
        | Returns a => Ret a
        | Panics e => Panic (Raised e)
        end,
        mkWorld (this w) u').

(** A map operation inside a method: an unhashable key makes it panic. *)
Definition map_access {U A} (a : access A) : prog U A :=
  λ w, match a with
       | Done r => (Ret r, w)
       | Unhashed x => (Panic (HashOfUnhashable x), w)
       end.

Definition read_items {U} : prog U gomap :=
  λ w, (Ret (items (this w)), w).

Definition write_items {U} (g : gomap) : prog U unit :=
  λ w, (Ret tt, mkWorld (mkMap g (mu (this w))) (env w)).

Definition acquiring {U} (request : sync.RWMutex → sync.acquire) : prog U unit :=
  λ w, match request (mu (this w)) with
       | sync.Acquired mu' => (Ret tt, mkWorld (mkMap (items (this w)) mu') (env w))
       | sync.Parked => (Blocked, w)
       end.

Definition releasing {U} (release : sync.RWMutex → option sync.RWMutex) : prog U unit :=
  λ w, match release (mu (this w)) with
       | Some mu' => (Ret tt, mkWorld (mkMap (items (this w)) mu') (env w))
       | None => (Fatal, w)
       end.

Definition mu_RLock {U} : prog U unit := acquiring sync.RLock.
Definition mu_RUnlock {U} : prog U unit := releasing sync.RUnlock.
Definition mu_Lock {U} : prog U unit := acquiring sync.Lock.
Definition mu_Unlock {U} : prog U unit := releasing sync.Unlock.

(** [defer d] followed by the rest of the function body. *)
Definition deferring {U A} (d : prog U unit) (body : prog U A) : prog U A :=
  λ w, match body w with
       | (Ret a, w') => (_ ← d; mret a) w'
       | (Panic e, w') =>
           match d w' with
           | (Ret _, w'') => (Panic e, w'')
           | (Panic e', w'') => (Panic e', w'')
           | (Blocked, w'') => (Blocked, w'')
           | (Fatal, w'') => (Fatal, w'')
           end
       | (Blocked, w') => (Blocked, w')
       | (Fatal, w') => (Fatal, w')
       end.

(** The two-valued index expression [value, found = items[key]]. *)
Definition index (g : gomap) (key : dynamic K F X) : access (V * bool) :=
  match lookup g key with
  | Done (Some value) => Done (value, true)
  | Done None => Done (zero_value, false)
  | Unhashed x => Unhashed x
  end.

(** The order in which one [range] loop enumerates a map. *)
Record range_order : Type := mkOrder {
  enum :> gomap → list (dynamic K F X * V);
  enum_perm : ∀ g, enum g ≡ₚ entries g
}.

Definition forwards : range_order :=
  mkOrder entries (λ g, reflexivity (entries g)).

Definition backwards : range_order :=
  mkOrder (λ g, reverse (entries g)) (λ g, reverse_Permutation (entries g)).

(** [func New() *Map] *)
Definition New : Map := mkMap make sync.zero.

Fixpoint range_loop {U} (action : dynamic K F X → V → closure E U bool)
    (es : list (dynamic K F X * V)) : prog U unit :=
  match es with
  | [] => mret tt
  | (key, value) :: rest =>
      continue ← invoke (action key value);
      if negb continue then mret tt else range_loop action rest
  end.

(** [func (m *Map) Range(action func(key, value interface{}) bool)] *)
Definition Range {U} (order : range_order)
    (action : dynamic K F X → V → closure E U bool) : prog U unit :=
  mu_RLock;;
  g ← read_items;
  range_loop action (order g);;
  mu_RUnlock.

(** [func (m *Map) Values() []interface{}] *)
Definition Values {U} (order : range_order) : prog U (list V) :=
  let result := [] in
  mu_RLock;;
  g ← read_items;
  let result := foldl (λ result entry, result ++ [entry.2]) result (order g) in
  mu_RUnlock;;
  mret result.

(** [func (m *Map) Keys() []interface{}] *)
Definition Keys {U} (order : range_order) : prog U (list (dynamic K F X)) :=
  let result := [] in
  mu_RLock;;
  g ← read_items;
  let result := foldl (λ result entry, result ++ [entry.1]) result (order g) in
  mu_RUnlock;;
  mret result.

(** [func (m *Map) Get(key interface{}) (value interface{}, found bool)];
    [RUnlock] is not deferred: a panic of the index expression leaves the
    read lock held. *)
Definition Get {U} (key : dynamic K F X) : prog U (V * bool) :=
  mu_RLock;;
  g ← read_items;
  '(value, found) ← map_access (index g key);
  mu_RUnlock;;
  mret (value, found).

(** [func (m *Map) Contains(key interface{}) bool] *)
Definition Contains {U} (key : dynamic K F X) : prog U bool :=
  '(_, found) ← Get key;
  mret found.

(** [func (m *Map) Put(key interface{}, value interface{}) interface{}] *)
Definition Put {U} (key : dynamic K F X) (value : V) : prog U V :=
  mu_Lock;;
  g ← read_items;
  g' ← map_access (assign g key value);
  write_items g';;
  mu_Unlock;;
  mret value.

(** [func (m *Map) ComputeIfAbsent(key, compFunction) (value, computed bool)] *)
Definition ComputeIfAbsent {U} (key : dynamic K F X)
    (compFunction : dynamic K F X → closure E U V) : prog U (V * bool) :=
  '(value, found) ← Get key;
  value ← (if negb found
           then computed ← invoke (compFunction key); Put key computed
           else mret value);
  mret (value, negb found).

(** [func (m *Map) Remove(key interface{}) (found bool)] *)
Definition Remove {U} (key : dynamic K F X) : prog U bool :=
  '(_, found) ← Get key;
  if found : bool
  then mu_Lock;;
       g ← read_items;
       g' ← map_access (delete_key g key);
       write_items g';;
       deferring mu_Unlock (mret found)
  else mret found.

(** [func (m *Map) Size() (size int)] *)
Definition Size {U} : prog U Z :=
  mu_RLock;;
  g ← read_items;
  let size := Z.of_nat (len g) in
  mu_RUnlock;;
  mret size.

(** [func (m *Map) Clear()] *)
Definition Clear {U} : prog U unit :=
  mu_Lock;;
  write_items make;;
  write_items make;;
  mu_Unlock.

(** One call of a method of [m], with its arguments. *)
Inductive op (U : Type) : Type :=
| OpRange (order : range_order) (action : dynamic K F X → V → closure E U bool)
| OpValues (order : range_order)
| OpKeys (order : range_order)
| OpGet (key : dynamic K F X)
| OpContains (key : dynamic K F X)
| OpPut (key : dynamic K F X) (value : V)
| OpComputeIfAbsent (key : dynamic K F X) (compFunction : dynamic K F X → closure E U V)
| OpRemove (key : dynamic K F X)
| OpSize
| OpClear.
Arguments OpRange {U} _ _.
Arguments OpValues {U} _.
Arguments OpKeys {U} _.
Arguments OpGet {U} _.
Arguments OpContains {U} _.
Arguments OpPut {U} _ _.
Arguments OpComputeIfAbsent {U} _ _.
Arguments OpRemove {U} _.
Arguments OpSize {U}.
Arguments OpClear {U}.

(** Making the call and dropping what it returns. *)
Definition call {U} (o : op U) : prog U unit :=
  match o with
  | OpRange order action => Range order action
  | OpValues order => Values order;; mret tt
  | OpKeys order => Keys order;; mret tt
  | OpGet key => Get key;; mret tt
  | OpContains key => Contains key;; mret tt
  | OpPut key value => Put key value;; mret tt
  | OpComputeIfAbsent key compFunction => ComputeIfAbsent key compFunction;; mret tt
  | OpRemove key => Remove key;; mret tt
  | OpSize => Size;; mret tt
  | OpClear => Clear
  end.

(** The key a call hashes, if it hashes one. *)
Definition hashed_key {U} (o : op U) : option (dynamic K F X) :=
  match o with
  | OpGet key | OpContains key | OpPut key _
  | OpComputeIfAbsent key _ | OpRemove key => Some key
  | _ => None
  end.

(** The calls that are handed a closure. *)
Definition takes_closure {U} (o : op U) : bool :=
  match o with
  | OpRange _ _ | OpComputeIfAbsent _ _ => true
  | _ => false
  end.

(** The mutex while a call started in state [mu0] hashes its key: [Put]
    holds the write lock, the other calls one more read lock. *)
Definition held_when_hashing {U} (o : op U) (mu0 : sync.RWMutex) : sync.RWMutex :=
  match o with
  | OpPut _ _ => sync.mkRWMutex 0 true
  | _ => sync.mkRWMutex (S (sync.readerCount mu0)) false
  end.

(** No lock of [m.mu] is held. *)
Definition unlocked {U} (w : world U) : Prop := mu (this w) = sync.zero.

(** The world where [m.items] holds [g], and the world where the closures'
    variables are [u]. *)
Definition with_items {U} (g : gomap) (w : world U) : world U :=
  mkWorld (mkMap g (mu (this w))) (env w).

Definition with_env {U U'} (u : U') (w : world U) : world U' :=
  mkWorld (this w) u.

(** The world where the mutex is [mu'], the rest as in [w]. *)
Definition with_mu {U} (mu' : sync.RWMutex) (w : world U) : world U :=
  mkWorld (mkMap (items (this w)) mu') (env w).

(** Two maps with the same entries. *)
Definition same_entries (g1 g2 : gomap) : Prop :=
  plain g1 = plain g2 ∧ irreflexive g1 ≡ₚ irreflexive g2.

End Map.

Arguments gomap K {_ _} F V.
Arguments access X A : clear implicits.
Arguments Done {X A} _.
Arguments Unhashed {X A} _.
Arguments Map K {_ _} F V.
Arguments world K {_ _} F V U.
Arguments mkWorld {K _ _ F V U} _ _.
Arguments this {K _ _ F V U} _.
Arguments env {K _ _ F V U} _.
Arguments range_order K {_ _} F X V.
Arguments op K {_ _} F X V E U.
Arguments OpRange {K _ _ F X V E U} _ _.
Arguments OpValues {K _ _ F X V E U} _.
Arguments OpKeys {K _ _ F X V E U} _.
Arguments OpGet {K _ _ F X V E U} _.
Arguments OpContains {K _ _ F X V E U} _.
Arguments OpPut {K _ _ F X V E U} _ _.
Arguments OpComputeIfAbsent {K _ _ F X V E U} _ _.
Arguments OpRemove {K _ _ F X V E U} _.
Arguments OpSize {K _ _ F X V E U}.
Arguments OpClear {K _ _ F X V E U}.

End anykey.

(** A NaN of type [float64], and slices of integers, as keys. *)
Inductive float_nan : Type := NaN.

Definition example_key : Type := anykey.dynamic any float_nan (list Z).

(** The example map [{"a": 1, "b": 2}] among all keys, mutex free. *)
Definition ab_anykey : anykey.world any float_nan any nat :=
  anykey.mkWorld
    (anykey.mkMap (anykey.mkGomap ab_items []) sync.zero) 0.

(** C1 as stated, for one key: after [Put(key, value)], [Get(key)] returns
    [(value, true)]. *)
Definition Put_then_Get_finds {K : Type} `{Countable K} {F X V : Type} `{Zero V}
    {E U : Type} (key : anykey.dynamic K F X) (value : V)
    (w : anykey.world K F V U) : Prop :=
  ∃ w', (anykey.Put (E:=E) key value;; anykey.Get key) w = (Ret (value, true), w').

(** A NaN and a slice as keys. *)
Definition nan_key : example_key := anykey.Irreflexive NaN.

Definition slice_key : example_key := anykey.Unhashable [1%Z].

(** A compute function that numbers the values it makes, and an action that
    counts its calls and always goes on, over every key. *)
Definition numbering_any : example_key → closure string nat any :=
  λ _ n, (Returns (Int (Z.of_nat n)), S n).

Definition counting_any : example_key → any → closure string nat bool :=
  λ _ _ n, (Returns true, S n).

(** A world of the map over keys with [key == key], seen among all keys:
    [loose] are the entries under keys with [key != key]. *)
Definition among_all_keys {K : Type} `{Countable K} {F V U : Type}
    (loose : list (F * V)) (w : world K V U) : anykey.world K F V U :=
  anykey.mkWorld
    (anykey.mkMap (anykey.mkGomap (items (this w)) loose) (mu (this w))) (env w).

(** How a call on a key with [key == key] ends, seen among all keys. *)
Definition raised {E X A : Type} (r : outcome E A) : outcome (anykey.panic E X) A :=
  match r with
  | Ret a => Ret a
  | Panic e => Panic (anykey.Raised e)
  | Blocked => Blocked
  | Fatal => Fatal
  end.

Definition as_anykey {K : Type} `{Countable K} {F X V E U A : Type}
    (loose : list (F * V)) (r : outcome E A * world K V U)
    : outcome (anykey.panic E X) A * anykey.world K F V U :=
  (raised r.1, among_all_keys loose r.2).

(** ** Properties *)

(** Unfolding the monad and the field accesses of a method body. *)
Ltac unfold_prog :=
  cbv [mbind mret prog_bind prog_ret mu_RLock mu_RUnlock mu_Lock mu_Unlock
       acquiring releasing read_items write_items deferring invoke
       with_items with_env unlocked this env items mu
       sync.RLock sync.RUnlock sync.Lock sync.Unlock sync.zero
       sync.readerCount sync.writerHeld].

(** Running a method on a world whose mutex is known to be unlocked. *)
Ltac run_unlocked w :=
  let g := fresh "g" in let m := fresh "m" in let u := fresh "u" in
  destruct w as [[g m] u]; unfold unlocked; simpl; intros ->.

Section Methods.

Context {K : Type} `{Countable K} {V : Type} `{Zero V} {E : Type} {U : Type}.

Implicit Types (w : world K V U) (key : K) (value : V) (g : gmap K V).

#[local] Abbreviation prog := (prog (K:=K) (V:=V) (E:=E) U).
#[local] Abbreviation Ret := (@Ret E _).
#[local] Abbreviation Panic := (@Panic E _).
#[local] Abbreviation Get := (Get (E:=E)).
#[local] Abbreviation Contains := (Contains (E:=E)).
#[local] Abbreviation Put := (Put (E:=E)).
#[local] Abbreviation Remove := (Remove (E:=E)).
#[local] Abbreviation Size := (Size (E:=E)).
#[local] Abbreviation Clear := (Clear (E:=E)).

Lemma Get_unlocked key w :
  unlocked w → Get key w = (Ret (index (items (this w)) key), w).
Proof.
  run_unlocked w. unfold Get. unfold_prog.
  by destruct (index g key).
Qed.

Lemma Put_unlocked key value w :
  unlocked w →
  Put key value w = (Ret value, with_items (<[key := value]> (items (this w))) w).
Proof. by run_unlocked w. Qed.

Lemma Size_unlocked w :
  unlocked w → Size w = (Ret (Z.of_nat (size (items (this w)))), w).
Proof. by run_unlocked w. Qed.

Lemma Clear_unlocked w :
  unlocked w → Clear w = (Ret tt, with_items ∅ w).
Proof. by run_unlocked w. Qed.

Lemma Remove_unlocked key w :
  unlocked w →
  Remove key w =
    (Ret (index (items (this w)) key).2, with_items (delete key (items (this w))) w).
Proof.
  run_unlocked w. unfold Remove, Get, index. unfold_prog.
  destruct (g !! key) as [value|] eqn:Hkey; [done|].
  by rewrite delete_id.
Qed.

Lemma index_Some g key value : g !! key = Some value → index g key = (value, true).
Proof. unfold index. by intros ->. Qed.

Lemma index_None g key : g !! key = None → index g key = (zero_value, false).
Proof. unfold index. by intros ->. Qed.

Lemma index_found g key : (index g key).2 = bool_decide (is_Some (g !! key)).
Proof.
  unfold index. destruct (g !! key) as [value|]; symmetry.
  - by apply bool_decide_eq_true_2.
  - apply bool_decide_eq_false_2. by intros [? ?].
Qed.

(** Sequencing after a call that returns. *)
Lemma bind_Ret {A B} (c : prog A) (k : A → prog B) w a w' :
  c w = (Ret a, w') → (c ≫= k) w = k a w'.
Proof. unfold mbind, prog_bind. by intros ->. Qed.

(** *** Contains *)

Lemma Contains_unlocked key w :
  unlocked w →
  Contains key w = (Ret (bool_decide (is_Some (items (this w) !! key))), w).
Proof.
  intros Hw. unfold Contains.
  erewrite bind_Ret by by apply Get_unlocked.
  rewrite <- index_found. by destruct (index _ _).
Qed.

(** C8: in every state of the map and of its mutex, [Contains(key)] ends as
    [Get(key)] does, in the same state, and returns the [found] component of
    what [Get(key)] returns; with the mutex free both return, and [found]
    tells whether [key] is in the map. *)
Theorem Contains_is_found_of_Get key w :
  Contains key w = (outcome_map snd (Get key w).1, (Get key w).2) ∧
  (unlocked w →
   Contains key w = (Ret (bool_decide (is_Some (items (this w) !! key))), w)).
Proof.
  split.
  - unfold Contains, mbind, prog_bind.
    by destruct (Get key w) as [[[value found]|e| |] w'].
  - apply Contains_unlocked.
Qed.

(** *** Remove *)

(** C3: with the mutex free, [Remove(key)] of a key that is in the map
    returns [true] and a following [Get(key)] returns [found = false];
    [Remove(key)] of a key that is not in the map returns [false] and leaves
    the whole state as it was. *)
Theorem Remove_present_absent key w :
  unlocked w →
  (is_Some (items (this w) !! key) →
     Remove key w = (Ret true, with_items (delete key (items (this w))) w) ∧
     (Remove key;; Get key) w =
       (Ret (zero_value, false), with_items (delete key (items (this w))) w)) ∧
  (items (this w) !! key = None → Remove key w = (Ret false, w)).
Proof.
  intros Hw. split.
  - intros [value Hkey].
    assert (Remove key w = (Ret true, with_items (delete key (items (this w))) w))
      as Hremove.
    { rewrite Remove_unlocked by done. by rewrite (index_Some _ _ value). }
    split; [done|].
    erewrite bind_Ret by done.
    rewrite Get_unlocked by done. simpl.
    by rewrite index_None by apply lookup_delete_eq.
  - intros Hkey. rewrite Remove_unlocked by done.
    rewrite index_None by done. simpl.
    rewrite delete_id by done. by destruct w as [[g m] u].
Qed.

(** *** Clear *)

(** C4: with the mutex free, after [Clear()] the call [Size()] returns 0 and
    [Get(key)] returns [found = false] for every key that was in the map
    (and for every other key as well). *)
Theorem Clear_empties w :
  unlocked w →
  (Clear;; Size) w = (Ret 0%Z, with_items ∅ w) ∧
  (∀ key, is_Some (items (this w) !! key) →
     (Clear;; Get key) w = (Ret (zero_value, false), with_items ∅ w)) ∧
  (∀ key, (Clear;; Get key) w = (Ret (zero_value, false), with_items ∅ w)).
Proof.
  intros Hw.
  assert (∀ key, (Clear;; Get key) w = (Ret (zero_value, false), with_items ∅ w))
    as Hget.
  { intros key. erewrite bind_Ret by by apply Clear_unlocked.
    rewrite Get_unlocked by done. simpl.
    by rewrite index_None by apply lookup_empty. }
  split; [|split]; [|by intros key _|done].
  erewrite bind_Ret by by apply Clear_unlocked.
  rewrite Size_unlocked by done. simpl.
  by rewrite map_size_empty.
Qed.

(** *** Other keys *)

(** C10: with the mutex free and [key'] different from [key], neither
    [Put(key, value)] nor [Remove(key)] changes what the map holds for
    [key']: the lookup of [key'] in the stored map is the same, and
    [Get(key')] returns after either call what it returns before. *)
Theorem Put_Remove_frame key key' value w :
  unlocked w → key ≠ key' →
  Get key' w = (Ret (index (items (this w)) key'), w) ∧
  (∃ w', Put key value w = (Ret value, w') ∧
         items (this w') !! key' = items (this w) !! key' ∧
         Get key' w' = (Ret (index (items (this w)) key'), w')) ∧
  (∃ found w', Remove key w = (Ret found, w') ∧
         items (this w') !! key' = items (this w) !! key' ∧
         Get key' w' = (Ret (index (items (this w)) key'), w')).
Proof.
  intros Hw Hne. split; [by apply Get_unlocked|split].
  - eexists. split; [by apply Put_unlocked|].
    assert (<[key := value]> (items (this w)) !! key' = items (this w) !! key')
      as Hframe by by apply lookup_insert_ne.
    split; [done|].
    rewrite Get_unlocked by done. simpl. unfold index. by rewrite Hframe.
  - eexists _, _. split; [by apply Remove_unlocked|].
    assert (delete key (items (this w)) !! key' = items (this w) !! key')
      as Hframe by by apply lookup_delete_ne.
    split; [done|].
    rewrite Get_unlocked by done. simpl. unfold index. by rewrite Hframe.
Qed.

End Methods.

(** *** Methods that take a closure *)

Section Closures.

Context {K : Type} `{Countable K} {V : Type} `{Zero V} {E : Type}.

#[local] Abbreviation Ret := (@Ret E _).
#[local] Abbreviation Panic := (@Panic E _).

Lemma ComputeIfAbsent_present {U} key (compFunction : K → closure E U V)
    (w : world K V U) value :
  unlocked w → items (this w) !! key = Some value →
  ComputeIfAbsent key compFunction w = (Ret (value, false), w).
Proof.
  intros Hw Hkey. unfold ComputeIfAbsent.
  erewrite bind_Ret by by apply Get_unlocked.
  by rewrite (index_Some _ _ value).
Qed.

Lemma ComputeIfAbsent_absent {U} key (compFunction : K → closure E U V)
    (w : world K V U) :
  unlocked w → items (this w) !! key = None →
  ComputeIfAbsent key compFunction w =
    match compFunction key (env w) with
    | (Returns value, u') =>
        (Ret (value, true),
         with_env u' (with_items (<[key := value]> (items (this w))) w))
    | (Panics e, u') => (Panic e, with_env u' w)
    end.
Proof.
  intros Hw Hkey. unfold ComputeIfAbsent.
  erewrite bind_Ret by by apply Get_unlocked.
  rewrite index_None by done. cbn [negb].
  revert Hw. run_unlocked w. simpl in *. unfold_prog.
  by destruct (compFunction key u) as [[value|e] u'].
Qed.

(** C2: with the mutex free and [key] not in the map, a [compFunction] that
    returns [value] is called exactly once, on [key]: the history of its
    calls grows by that one call; [value] is stored under [key] and
    [(value, true)] is returned.  With [key] in the map, [compFunction] is
    not called: its history and its variables stay as they were, nothing is
    stored, and the value already in the map is returned with
    [computed = false]. *)
Theorem ComputeIfAbsent_calls_once {U} key (compFunction : K → closure E U V)
    (w : world K V U) (calls : list (K * completion E V)) :
  unlocked w →
  let observed := λ k, recording k (compFunction k) in
  (∀ value u',
     items (this w) !! key = None →
     compFunction key (env w) = (Returns value, u') →
     ComputeIfAbsent key compFunction w =
       (Ret (value, true),
        with_env u' (with_items (<[key := value]> (items (this w))) w)) ∧
     ComputeIfAbsent key observed (with_env (env w, calls) w) =
       (Ret (value, true),
        with_env (u', calls ++ [(key, Returns value)])
          (with_items (<[key := value]> (items (this w))) w))) ∧
  (∀ value,
     items (this w) !! key = Some value →
     ComputeIfAbsent key compFunction w = (Ret (value, false), w) ∧
     ComputeIfAbsent key observed (with_env (env w, calls) w) =
       (Ret (value, false), with_env (env w, calls) w)).
Proof.
  intros Hw observed. split.
  - intros value u' Hkey Hcall. split.
    + rewrite ComputeIfAbsent_absent by done. by rewrite Hcall.
    + rewrite ComputeIfAbsent_absent by done.
      unfold observed, recording. simpl. by rewrite Hcall.
  - intros value Hkey. split; by apply ComputeIfAbsent_present.
Qed.

(** C7: with the mutex free and [key] not in the map, when [compFunction]
    panics with [e], [ComputeIfAbsent] panics with the same [e]; the [Map]
    is as it was, items and mutex, so nothing is stored under [key], and
    only the closure's own variables may have changed. *)
Theorem ComputeIfAbsent_panic_propagates {U} key
    (compFunction : K → closure E U V) (w : world K V U) e u' :
  unlocked w →
  items (this w) !! key = None →
  compFunction key (env w) = (Panics e, u') →
  ∃ w', ComputeIfAbsent key compFunction w = (Panic e, w') ∧
        this w' = this w ∧ env w' = u' ∧
        items (this w') !! key = None.
Proof.
  intros Hw Hkey Hcall. exists (with_env u' w).
  rewrite ComputeIfAbsent_absent by done. by rewrite Hcall.
Qed.

(** *** Range *)

(** The loop of [Range] run on an observed [action]: what it appends to the
    history of calls, and that observing changes nothing else. *)
Lemma range_loop_observed {U} (action : K → V → closure E U bool)
    (entries : list (K * V))
    (w : world K V (U * list (K * V * completion E bool))) :
  let observed := λ k v, recording (k, v) (action k v) in
  ∃ r u' new,
    range_loop observed entries w = (r, with_env (u', (env w).2 ++ new) w) ∧
    range_loop action entries (with_env (env w).1 w) = (r, with_env u' w) ∧
    new.*1 `prefix_of` entries ∧
    (∀ call, call ∈ new → ∃ u, call.2 = (action call.1.1 call.1.2 u).1) ∧
    (∀ i entry, new !! i = Some (entry, Returns false) → length new = S i) ∧
    ((∀ call, call ∈ new → call.2 = Returns true) →
       new.*1 = entries ∧ r = Ret tt).
Proof.
  intros observed. revert w.
  induction entries as [|[key value] rest IH]; intros [m [u calls]].
  - exists (Ret tt), u, []. simpl. unfold with_env. simpl.
    rewrite app_nil_r. split_and!; try done.
    + intros call Hcall. by apply elem_of_nil in Hcall.
  - simpl. unfold mbind, prog_bind, invoke, observed at 1, recording.
    simpl. destruct (action key value u) as [[continue|e] u0] eqn:Hcall.
    + destruct continue; simpl.
      * destruct (IH (mkWorld m (u0, calls ++ [((key, value), Returns true)])))
          as (r & u' & new & Hobs & Hplain & Hprefix & Hres & Hstop & Hall).
        exists r, u', (((key, value), Returns true) :: new).
        unfold with_env in *. simpl in *.
        rewrite Hobs, Hplain, <- app_assoc. simpl.
        split_and!; try done.
        -- by apply prefix_cons.
        -- intros call [->|Hin]%elem_of_cons; [|by apply Hres].
           exists u. simpl. by rewrite Hcall.
        -- intros [|i] entry Hi; simpl in Hi; [done|].
           f_equal. by eapply Hstop.
        -- intros Htrue.
           assert (∀ call, call ∈ new → call.2 = Returns true) as Hnew
             by (intros call Hin; apply Htrue; by right).
           destruct (Hall Hnew) as [Heq ->].
           split; [f_equal; exact Heq|done].
      * exists (Ret tt), u0, [((key, value), Returns false)].
        unfold with_env. simpl. split_and!; try done.
        -- apply prefix_cons, prefix_nil.
        -- intros call ->%list_elem_of_singleton.
           exists u. simpl. by rewrite Hcall.
        -- intros [|[|i]] entry Hi; by simpl in Hi.
        -- intros Htrue. by specialize (Htrue _ (list_elem_of_here _ _)).
    + exists (Panic e), u0, [((key, value), Panics e)].
      unfold with_env. simpl. split_and!; try done.
      * apply prefix_cons, prefix_nil.
      * intros call ->%list_elem_of_singleton.
        exists u. simpl. by rewrite Hcall.
      * intros [|[|i]] entry Hi; by simpl in Hi.
      * intros Htrue. by specialize (Htrue _ (list_elem_of_here _ _)).
Qed.

(** C9: with the mutex free, [Range(action)] calls [action] on entries of
    the map in the order of the loop, without repeating or skipping one: the
    history of calls is a prefix of the enumeration.  A call that returns
    [false] is the last call.  When no call returned [false] or panicked,
    and so when [action] always returns [true], [Range] returns with the
    mutex free again and [action] has been called exactly once on every
    entry of the map.  Observing the calls changes neither the result nor
    the closure's variables. *)
Theorem Range_visits_until_false {U} (order : range_order K V)
    (action : K → V → closure E U bool) (w : world K V U) :
  unlocked w →
  let observed := λ k v, recording (k, v) (action k v) in
  ∃ r u' calls w',
    Range order observed (with_env (env w, []) w) = (r, w') ∧
    env w' = (u', calls) ∧
    Range order action w = (r, with_env u' w') ∧
    items (this w') = items (this w) ∧
    calls.*1 `prefix_of` order (items (this w)) ∧
    (∀ i entry, calls !! i = Some (entry, Returns false) → length calls = S i) ∧
    ((∀ call, call ∈ calls → call.2 = Returns true) →
       r = Ret tt ∧ this w' = this w ∧
       calls.*1 = order (items (this w)) ∧
       calls.*1 ≡ₚ map_to_list (items (this w))) ∧
    ((∀ k v u, (action k v u).1 = Returns true) →
       r = Ret tt ∧ this w' = this w ∧
       calls.*1 ≡ₚ map_to_list (items (this w))).
Proof.
  intros Hw observed. revert Hw. run_unlocked w.
  destruct (range_loop_observed action (order g)
              (mkWorld (mkMap g (sync.mkRWMutex 1 false)) (u, [])))
    as (r & u' & new & Hobs & Hplain & Hprefix & Hres & Hstop & Hall).
  fold observed in Hobs. unfold with_env in *. simpl in *.
  assert (∃ m',
    Range order observed (mkWorld (mkMap g sync.zero) (u, [])) =
      (r, mkWorld (mkMap g m') (u', new)) ∧
    Range order action (mkWorld (mkMap g sync.zero) u) =
      (r, mkWorld (mkMap g m') u') ∧
    (r = Ret tt → m' = sync.zero)) as (m' & Hrun & Hrun' & Hfree).
  { unfold Range. unfold_prog. fold observed.
    rewrite Hobs, Hplain.
    destruct r as [[]|e| |]; eexists; split_and!; try done. }
  exists r, u', new, (mkWorld (mkMap g m') (u', new)). simpl.
  assert ((∀ call, call ∈ new → call.2 = Returns true) →
          r = Ret tt ∧ mkMap g m' = mkMap g sync.zero ∧
          new.*1 = order g ∧ new.*1 ≡ₚ map_to_list g) as Hcomplete.
  { intros Htrue. destruct (Hall Htrue) as [Heq ->].
    rewrite Hfree by done. split_and!; try done.
    rewrite Heq. apply enum_perm. }
  split_and!; try done.
  intros Halways.
  destruct Hcomplete as (-> & -> & _ & Hperm); [|done].
  intros call Hin. destruct (Hres call Hin) as [u1 ->]. apply Halways.
Qed.

(** *** Keys and Values *)

Lemma foldl_append {A B} (f : A → B) (result : list B) (entries : list A) :
  foldl (λ result entry, result ++ [f entry]) result entries =
  result ++ (f <$> entries).
Proof.
  revert result. induction entries as [|entry rest IH]; intros result; simpl.
  - by rewrite app_nil_r.
  - rewrite IH, <- app_assoc. done.
Qed.

Lemma Keys_unlocked {U} (order : range_order K V) (w : world K V U) :
  unlocked w → Keys order w = (Ret (order (items (this w))).*1, w).
Proof.
  run_unlocked w. unfold Keys. unfold_prog. by rewrite foldl_append.
Qed.

Lemma Values_unlocked {U} (order : range_order K V) (w : world K V U) :
  unlocked w → Values order w = (Ret (order (items (this w))).*2, w).
Proof.
  run_unlocked w. unfold Values. unfold_prog. by rewrite foldl_append.
Qed.

(** C6, amended: with the mutex free, [Keys()] and [Values()] return and
    leave the state as it was; both results have the length [Size()]
    returns; [Keys()] lists the keys of the map and [Values()] the values of
    its entries, each entry once, in the order of the loop that built the
    result.  The key and the value at one index belong to the same entry
    when the two loops enumerate the map in the same order. *)
Theorem Keys_Values_of_entries {U} (order_k order_v : range_order K V)
    (w : world K V U) :
  unlocked w →
  ∃ ks vs,
    Keys order_k w = (Ret ks, w) ∧
    Values order_v w = (Ret vs, w) ∧
    Size w = (Ret (Z.of_nat (length ks)), w) ∧
    length ks = length vs ∧
    ks ≡ₚ (map_to_list (items (this w))).*1 ∧
    vs ≡ₚ (map_to_list (items (this w))).*2 ∧
    (order_k (items (this w)) = order_v (items (this w)) →
       elementwise (items (this w)) ks vs).
Proof.
  intros Hw. exists (order_k (items (this w))).*1, (order_v (items (this w))).*2.
  pose proof (enum_perm order_k (items (this w))) as Hk.
  pose proof (enum_perm order_v (items (this w))) as Hv.
  split_and!.
  - by apply Keys_unlocked.
  - by apply Values_unlocked.
  - rewrite (Size_unlocked (E:=E)) by done.
    by rewrite length_fmap, Hk, length_map_to_list.
  - by rewrite !length_fmap, Hk, Hv.
  - by rewrite Hk.
  - by rewrite Hv.
  - intros Horder i k v Hi_k Hi_v. rewrite Horder in Hi_k.
    rewrite list_lookup_fmap in Hi_k. rewrite list_lookup_fmap in Hi_v.
    destruct (order_v (items (this w)) !! i) as [[k' v']|] eqn:Hi; [|done].
    simpl in *. simplify_eq.
    apply elem_of_map_to_list. rewrite <- Hv.
    by eapply list_elem_of_lookup_2.
Qed.

End Closures.

(** *** Size along a sequence of calls *)

Section Sequences.

Context {K : Type} `{Countable K} {V : Type} `{Zero V} {E U : Type}.

Implicit Types (w : world K V U) (o : op K V E U) (ops : list (op K V E U)).

#[local] Abbreviation Ret := (@Ret E _).

Lemma range_loop_this (action : K → V → closure E U bool) entries w r w' :
  range_loop action entries w = (r, w') → this w' = this w.
Proof.
  revert w. induction entries as [|[key value] rest IH]; intros [m u]; simpl.
  - by intros [= _ <-].
  - unfold mbind, prog_bind, invoke. simpl.
    destruct (action key value u) as [[[]|e] u0]; simpl.
    + intros Hrest. by apply IH in Hrest.
    + by intros [= _ <-].
    + by intros [= _ <-].
Qed.

Lemma Range_returns (order : range_order K V) action w w' :
  unlocked w → Range order action w = (Ret tt, w') → this w' = this w.
Proof.
  run_unlocked w. unfold Range. unfold_prog.
  destruct (range_loop action (order g)
              (mkWorld (mkMap g (sync.mkRWMutex 1 false)) u))
    as [r [[g1 m1] u1]] eqn:Hloop.
  apply range_loop_this in Hloop. simpl in Hloop. injection Hloop as -> ->.
  destruct r; by intros [= <-].
Qed.

(** What one returning call does to the mutex and to the keys of the map. *)
Lemma call_track o w w' :
  unlocked w → call o w = (Ret tt, w') →
  unlocked w' ∧ dom (items (this w')) = track (dom (items (this w))) o.
Proof.
  intros Hw. destruct o; simpl.
  - intros Hcall. apply Range_returns in Hcall; [|done].
    unfold unlocked. by rewrite Hcall.
  - erewrite bind_Ret by by apply Values_unlocked. by intros [= <-].
  - erewrite bind_Ret by by apply Keys_unlocked. by intros [= <-].
  - erewrite bind_Ret by by apply Get_unlocked. by intros [= <-].
  - erewrite bind_Ret by by apply Contains_unlocked. by intros [= <-].
  - erewrite bind_Ret by by apply Put_unlocked.
    intros [= <-]. split; [done|]. simpl. by rewrite dom_insert_L.
  - destruct (items (this w) !! key) as [value|] eqn:Hkey.
    + erewrite bind_Ret by by eapply ComputeIfAbsent_present.
      intros [= <-]. split; [done|].
      simpl. symmetry. apply subseteq_union_1_L, singleton_subseteq_l.
      by eapply elem_of_dom_2.
    + unfold mbind at 1, prog_bind at 1.
      rewrite ComputeIfAbsent_absent by done.
      destruct (compFunction key (env w)) as [[value|e] u']; [|done].
      intros [= <-]. split; [done|]. simpl. by rewrite dom_insert_L.
  - erewrite bind_Ret by by apply Remove_unlocked.
    intros [= <-]. split; [done|]. simpl. by rewrite dom_delete_L.
  - erewrite bind_Ret by by apply Size_unlocked. by intros [= <-].
  - rewrite Clear_unlocked by done.
    intros [= <-]. split; [done|]. simpl. by rewrite dom_empty_L.
Qed.

Lemma run_track ops w w' :
  unlocked w → run ops w = (Ret tt, w') →
  unlocked w' ∧ dom (items (this w')) = foldl track (dom (items (this w))) ops.
Proof.
  revert w. induction ops as [|o rest IH]; intros w Hw; simpl.
  - by intros [= <-].
  - unfold mbind, prog_bind.
    destruct (call o w) as [[[]|e| |] w1] eqn:Hcall; try done.
    destruct (call_track _ _ _ Hw Hcall) as [Hw1 <-]. by apply IH.
Qed.

(** C5, amended: after any sequence of calls made on a new map that all
    returned, the mutex is free and [Size()] returns the number of distinct
    keys that were put, by [Put] or by [ComputeIfAbsent], and were neither
    removed by a later [Remove] nor dropped by a later [Clear]; putting a
    key again does not count it twice.  These keys are the keys of the
    map. *)
Theorem Size_counts_live_keys ops (u : U) w :
  run ops (mkWorld New u) = (Ret tt, w) →
  Size w = (Ret (Z.of_nat (size (live_keys ops))), w) ∧
  dom (items (this w)) = live_keys ops.
Proof.
  intros Hrun. apply run_track in Hrun as [Hw Hdom]; [|done].
  simpl in Hdom. rewrite dom_empty_L in Hdom. fold (live_keys ops) in Hdom.
  split; [|done].
  rewrite Size_unlocked by done. by rewrite <- Hdom, size_dom.
Qed.

Lemma track_spec (keys : gset K) o key :
  key ∈ track keys o ↔ puts o key ∨ (key ∈ keys ∧ ¬ drops o key).
Proof.
  destruct o; simpl;
    rewrite ?elem_of_union, ?elem_of_difference, ?elem_of_singleton,
      ?elem_of_empty;
    intuition congruence.
Qed.

(** [live_keys] in words: a key is counted when some call put it and no
    later call of the sequence removed it or cleared the map. *)
Lemma live_keys_spec ops key :
  key ∈ live_keys ops ↔
  ∃ before o after,
    ops = before ++ o :: after ∧ puts o key ∧ Forall (λ o', ¬ drops o' key) after.
Proof.
  unfold live_keys. induction ops as [|o ops IH] using rev_ind.
  - simpl. split; [by intros ?%elem_of_empty|].
    intros (before & o & after & Heq & _). by apply app_cons_not_nil in Heq.
  - rewrite foldl_app. simpl. rewrite track_spec, IH. split.
    + intros [Hput|[(before & o1 & after & -> & Hput & Hafter) Hkeep]].
      * exists ops, o, []. split_and!; [done|done|apply Forall_nil_2].
      * exists before, o1, (after ++ [o]). split_and!; [|done|].
        -- by rewrite <- app_assoc.
        -- apply Forall_app. split; [done|]. by apply Forall_singleton.
    + intros (before & o1 & after & Heq & Hput & Hafter).
      destruct after as [|o2 after _] using rev_ind.
      * apply app_inj_tail in Heq as [-> ->]. by left.
      * rewrite app_comm_cons, app_assoc in Heq.
        apply app_inj_tail in Heq as [-> ->].
        apply Forall_app in Hafter as [Hafter Hkeep].
        apply Forall_inv in Hkeep.
        right. split; [|done]. by exists before, o1, after.
Qed.

Lemma range_loop_returns (action : K → V → closure E U bool) entries w :
  (∀ k v u, ∃ continue u', action k v u = (Returns continue, u')) →
  ∃ w', range_loop action entries w = (Ret tt, w').
Proof.
  intros Haction. revert w.
  induction entries as [|[key value] rest IH]; intros [m u]; simpl.
  - by eexists.
  - unfold mbind, prog_bind, invoke. simpl.
    destruct (Haction key value u) as (continue & u' & ->).
    destruct continue; simpl; [apply IH|by eexists].
Qed.

Lemma call_returns o w :
  closures_return o → unlocked w → ∃ w', call o w = (Ret tt, w').
Proof.
  intros Ho Hw. destruct o; simpl in *.
  - revert Hw. run_unlocked w. unfold Range. unfold_prog.
    destruct (range_loop_returns action (order g)
                (mkWorld (mkMap g (sync.mkRWMutex 1 false)) u) Ho)
      as [[[g1 m1] u1] Hloop].
    rewrite Hloop. apply range_loop_this in Hloop.
    simpl in Hloop. injection Hloop as -> ->. by eexists.
  - erewrite bind_Ret by by apply Values_unlocked. by eexists.
  - erewrite bind_Ret by by apply Keys_unlocked. by eexists.
  - erewrite bind_Ret by by apply Get_unlocked. by eexists.
  - erewrite bind_Ret by by apply Contains_unlocked. by eexists.
  - erewrite bind_Ret by by apply Put_unlocked. by eexists.
  - destruct (items (this w) !! key) as [value|] eqn:Hkey.
    + erewrite bind_Ret by by eapply ComputeIfAbsent_present. by eexists.
    + unfold mbind at 1, prog_bind at 1.
      rewrite ComputeIfAbsent_absent by done.
      destruct (Ho key (env w)) as (value & u' & ->). by eexists.
  - erewrite bind_Ret by by apply Remove_unlocked. by eexists.
  - erewrite bind_Ret by by apply Size_unlocked. by eexists.
  - rewrite Clear_unlocked by done. by eexists.
Qed.

(** A sequence of calls whose closures return runs to its end. *)
Lemma run_returns ops w :
  Forall closures_return ops → unlocked w → ∃ w', run ops w = (Ret tt, w').
Proof.
  intros Hops. revert w.
  induction Hops as [|o rest Ho _ IH]; intros w Hw; simpl.
  - by eexists.
  - destruct (call_returns o w Ho Hw) as [w1 Hcall].
    unfold mbind, prog_bind. rewrite Hcall.
    apply IH. by eapply call_track.
Qed.

End Sequences.

(** *** The locking discipline, in every state of the mutex *)

Section Locking.

Context {K : Type} `{Countable K} {V : Type} `{Zero V} {E U : Type}.

Implicit Types (w : world K V U) (o : op K V E U) (key : K) (value : V).

#[local] Abbreviation Ret := (@Ret E _).
#[local] Abbreviation Blocked := (@Blocked E _).

(** Taking [w] apart down to the two fields of its mutex. *)
Ltac by_mutex w :=
  let g := fresh "g" in let n := fresh "n" in
  let b := fresh "b" in let u := fresh "u" in
  destruct w as [[g [n b]] u].

Lemma Get_any key w :
  Get key w =
    if sync.writerHeld (mu (this w)) then (Blocked, w)
    else (Ret (index (items (this w)) key), w).
Proof.
  by_mutex w. unfold Get. unfold_prog.
  destruct b; [done|]. by destruct (index g key).
Qed.

Lemma Contains_any key w :
  Contains key w =
    if sync.writerHeld (mu (this w)) then (Blocked, w)
    else (Ret (index (items (this w)) key).2, w).
Proof.
  unfold Contains, mbind, prog_bind. rewrite Get_any.
  destruct (sync.writerHeld _); [done|]. by destruct (index _ _).
Qed.

Lemma Size_any w :
  Size w =
    if sync.writerHeld (mu (this w)) then (Blocked, w)
    else (Ret (Z.of_nat (size (items (this w)))), w).
Proof. by_mutex w. unfold Size. unfold_prog. by destruct b. Qed.

Lemma Keys_any (order : range_order K V) w :
  Keys order w =
    if sync.writerHeld (mu (this w)) then (Blocked, w)
    else (Ret (order (items (this w))).*1, w).
Proof.
  by_mutex w. unfold Keys. unfold_prog.
  destruct b; [done|]. by rewrite foldl_append.
Qed.

Lemma Values_any (order : range_order K V) w :
  Values order w =
    if sync.writerHeld (mu (this w)) then (Blocked, w)
    else (Ret (order (items (this w))).*2, w).
Proof.
  by_mutex w. unfold Values. unfold_prog.
  destruct b; [done|]. by rewrite foldl_append.
Qed.

Lemma Put_any key value w :
  Put key value w =
    match mu (this w) with
    | sync.mkRWMutex 0 false =>
        (Ret value, with_items (<[key := value]> (items (this w))) w)
    | _ => (Blocked, w)
    end.
Proof. by_mutex w. unfold Put. unfold_prog. by destruct b, n. Qed.

Lemma Clear_any w :
  Clear w =
    match mu (this w) with
    | sync.mkRWMutex 0 false => (Ret tt, with_items ∅ w)
    | _ => (Blocked, w)
    end.
Proof. by_mutex w. unfold Clear. unfold_prog. by destruct b, n. Qed.

Lemma Remove_any key w :
  Remove key w =
    if sync.writerHeld (mu (this w)) then (Blocked, w)
    else match items (this w) !! key, sync.readerCount (mu (this w)) with
         | None, _ => (Ret false, w)
         | Some _, 0 => (Ret true, with_items (delete key (items (this w))) w)
         | Some _, S _ => (Blocked, w)
         end.
Proof.
  by_mutex w. unfold Remove, Get, index. unfold_prog.
  destruct b; [done|]. destruct (g !! key); [|done]. by destruct n.
Qed.

Lemma ComputeIfAbsent_any key (compFunction : K → closure E U V) w :
  ComputeIfAbsent key compFunction w =
    if sync.writerHeld (mu (this w)) then (Blocked, w)
    else match items (this w) !! key with
         | Some value => (Ret (value, false), w)
         | None =>
             match compFunction key (env w), sync.readerCount (mu (this w)) with
             | (Returns value, u'), 0 =>
                 (Ret (value, true),
                  with_env u' (with_items (<[key := value]> (items (this w))) w))
             | (Returns value, u'), S _ => (Blocked, with_env u' w)
             | (Panics e, u'), _ => (Panic e, with_env u' w)
             end
         end.
Proof.
  by_mutex w. unfold ComputeIfAbsent, Get, Put, index. unfold_prog.
  destruct b; [done|]. destruct (g !! key); [done|]. cbn [negb].
  destruct (compFunction key u) as [[value|e] u']; [|done]. by destruct n.
Qed.

Lemma range_loop_outcome (action : K → V → closure E U bool) entries w r w' :
  range_loop action entries w = (r, w') → r = Ret tt ∨ ∃ e, r = Panic e.
Proof.
  revert w. induction entries as [|[key value] rest IH]; intros [m u]; simpl.
  - intros [= <- _]. by left.
  - unfold mbind, prog_bind, invoke. simpl.
    destruct (action key value u) as [[[]|e] u0]; simpl.
    + apply IH.
    + intros [= <- _]. by left.
    + intros [= <- _]. right. by exists e.
Qed.

Lemma Range_any (order : range_order K V) (action : K → V → closure E U bool) w :
  if sync.writerHeld (mu (this w)) then Range order action w = (Blocked, w)
  else ∃ r u',
    range_loop action (order (items (this w)))
      (mkWorld (mkMap (items (this w))
                  (sync.mkRWMutex (S (sync.readerCount (mu (this w)))) false))
         (env w)) =
      (r, mkWorld (mkMap (items (this w))
                     (sync.mkRWMutex (S (sync.readerCount (mu (this w)))) false))
            u') ∧
    ((r = Ret tt ∧ Range order action w = (Ret tt, with_env u' w)) ∨
     (∃ e, r = Panic e ∧
           Range order action w =
             (Panic e,
              mkWorld (mkMap (items (this w))
                         (sync.mkRWMutex (S (sync.readerCount (mu (this w)))) false))
                u'))).
Proof.
  by_mutex w. simpl. destruct b.
  - unfold Range. by unfold_prog.
  - destruct (range_loop action (order g)
                (mkWorld (mkMap g (sync.mkRWMutex (S n) false)) u))
      as [r [m1 u1]] eqn:Hloop.
    pose proof (range_loop_this _ _ _ _ _ Hloop) as Hthis.
    simpl in Hthis. subst m1. exists r, u1. split; [done|].
    unfold Range. unfold_prog. rewrite Hloop.
    destruct (range_loop_outcome _ _ _ _ _ Hloop) as [->|[e ->]].
    + by left.
    + right. by exists e.
Qed.

(** How a call can end, and what it has done to [m] by then. *)
Lemma call_outcomes o w :
  match call o w with
  | (concurrentmap.Ret _, w') => mu (this w') = mu (this w)
  | (concurrentmap.Panic _, w') =>
      takes_closure o = true ∧ items (this w') = items (this w) ∧
      sync.writerHeld (mu (this w')) = false
  | (concurrentmap.Blocked, w') => this w' = this w ∧ ¬ unlocked w
  | (concurrentmap.Fatal, _) => False
  end.
Proof.
  destruct o; simpl; unfold mbind, prog_bind.
  - pose proof (Range_any order action w) as Hrange. by_mutex w.
    simpl in Hrange. destruct b.
    + rewrite Hrange. by split.
    + destruct Hrange as (r & u' & _ & [[_ ->]|(e & _ & ->)]); by simpl.
  - rewrite Values_any. by_mutex w. by destruct b.
  - rewrite Keys_any. by_mutex w. by destruct b.
  - rewrite Get_any. by_mutex w. by destruct b.
  - rewrite Contains_any. by_mutex w. by destruct b.
  - rewrite Put_any. by_mutex w. by destruct b, n.
  - rewrite ComputeIfAbsent_any. by_mutex w. simpl.
    destruct b; [done|]. destruct (g !! key); [done|].
    destruct (compFunction key u) as [[value|e] u']; [|done]. by destruct n.
  - rewrite Remove_any. by_mutex w. simpl.
    destruct b; [done|]. destruct (g !! key); [|done]. by destruct n.
  - rewrite Size_any. by_mutex w. by destruct b.
  - rewrite Clear_any. by_mutex w. by destruct b, n.
Qed.

(** X1: in every state of the mutex, a call that returns leaves the mutex
    as it found it: every lock a method takes it has released by the time
    it returns. *)
Theorem returning_call_restores_mutex o w w' :
  call o w = (Ret tt, w') → mu (this w') = mu (this w).
Proof.
  intros Hcall. pose proof (call_outcomes o w) as Hout.
  by rewrite Hcall in Hout.
Qed.

(** X3: with the mutex free, no call parks on the mutex: a method never
    requests a lock while it still holds one. *)
Theorem unlocked_call_never_blocks o w :
  unlocked w → (call o w).1 ≠ Blocked.
Proof.
  intros Hw. pose proof (call_outcomes o w) as Hout.
  destruct (call o w) as [[[]|e| |] w']; simpl; try done.
  by destruct Hout as [_ []].
Qed.

(** X4: while the write lock is held, every call parks before it reads or
    writes anything: it calls no closure and the world is as it was. *)
Theorem write_locked_call_blocks o w :
  write_locked w → call o w = (Blocked, w).
Proof.
  unfold write_locked. intros Hheld.
  destruct o; simpl; unfold mbind, prog_bind.
  - pose proof (Range_any order action w) as Hrange. by rewrite Hheld in Hrange.
  - by rewrite Values_any, Hheld.
  - by rewrite Keys_any, Hheld.
  - by rewrite Get_any, Hheld.
  - by rewrite Contains_any, Hheld.
  - rewrite Put_any. by_mutex w. simpl in Hheld. subst b. by destruct n.
  - by rewrite ComputeIfAbsent_any, Hheld.
  - by rewrite Remove_any, Hheld.
  - by rewrite Size_any, Hheld.
  - rewrite Clear_any. by_mutex w. simpl in Hheld. subst b. by destruct n.
Qed.

(** X5: [Range] releases its read lock after the loop and not through
    [defer]: when [action] panics, [Range], called with the mutex free,
    propagates the panic with the read lock still held and the items as they
    were; from then on [Get] still returns, and [Put] and [Clear] park for
    ever. *)
Theorem Range_panic_keeps_read_lock (order : range_order K V)
    (action : K → V → closure E U bool) w e w' :
  unlocked w →
  Range order action w = (Panic e, w') →
  items (this w') = items (this w) ∧
  mu (this w') = sync.mkRWMutex 1 false ∧
  (∀ key, Get key w' = (Ret (index (items (this w)) key), w')) ∧
  (∀ key value, Put key value w' = (Blocked, w')) ∧
  Clear w' = (Blocked, w').
Proof.
  intros Hw Hpanic. pose proof (Range_any order action w) as Hrange.
  revert Hw Hpanic Hrange. run_unlocked w. intros Hpanic Hrange.
  destruct Hrange as (r & u' & _ & [[_ Hret]|(e' & _ & Hret)]);
    rewrite Hret in Hpanic; [done|].
  injection Hpanic as -> <-. split_and!; try done.
  intros key. by rewrite Get_any.
Qed.

(** X6: while read locks are held and the write lock is not, [Get],
    [Contains], [Size], [Keys] and [Values] return what they return with the
    mutex free and change nothing; [Put] and [Clear] park without changing
    anything; [Remove] returns [false] for a key that is not in the map and
    parks, the key still in the map, for one that is; [ComputeIfAbsent]
    returns the value of a key that is in the map, and for a key that is not
    it calls [compFunction] and then parks with nothing stored. *)
Theorem read_locked_reads_return_writes_block key value
    (order : range_order K V) (compFunction : K → closure E U V) w :
  read_locked w →
  Get key w = (Ret (index (items (this w)) key), w) ∧
  Contains key w = (Ret (index (items (this w)) key).2, w) ∧
  Size w = (Ret (Z.of_nat (size (items (this w)))), w) ∧
  Keys order w = (Ret (order (items (this w))).*1, w) ∧
  Values order w = (Ret (order (items (this w))).*2, w) ∧
  Put key value w = (Blocked, w) ∧
  Clear w = (Blocked, w) ∧
  Remove key w =
    (if (index (items (this w)) key).2 then (Blocked, w) else (Ret false, w)) ∧
  ComputeIfAbsent key compFunction w =
    match items (this w) !! key with
    | Some present => (Ret (present, false), w)
    | None =>
        match compFunction key (env w) with
        | (Returns _, u') => (Blocked, with_env u' w)
        | (Panics e, u') => (Panic e, with_env u' w)
        end
    end.
Proof.
  intros [Hwriter Hreaders].
  rewrite Get_any, Contains_any, Size_any, Keys_any, Values_any, Put_any,
    Clear_any, Remove_any, ComputeIfAbsent_any, Hwriter.
  by_mutex w. simpl in *. subst b.
  destruct n as [|n]; [lia|].
  split_and!; try done.
  unfold index. by destruct (g !! key).
Qed.

(** X7: in every state of the mutex and however the call ends, a call of
    [Range], [Values], [Keys], [Get], [Contains] or [Size] leaves the items
    of the map as they were. *)
Theorem reads_keep_items o w :
  writes o = false → items (this (call o w).2) = items (this w).
Proof.
  destruct o; simpl; try done; intros _; unfold mbind, prog_bind.
  - pose proof (Range_any order action w) as Hrange. by_mutex w.
    simpl in Hrange. destruct b.
    + by rewrite Hrange.
    + by destruct Hrange as (r & u' & _ & [[_ ->]|(e & _ & ->)]).
  - rewrite Values_any. by destruct (sync.writerHeld _).
  - rewrite Keys_any. by destruct (sync.writerHeld _).
  - rewrite Get_any. by destruct (sync.writerHeld _).
  - rewrite Contains_any. by destruct (sync.writerHeld _).
  - rewrite Size_any. by destruct (sync.writerHeld _).
Qed.

End Locking.

(** *** How the methods compose, mutex free *)

Section Composition.

Context {K : Type} `{Countable K} {V : Type} `{Zero V} {E U : Type}.

Implicit Types (w : world K V U) (key : K) (value : V).

#[local] Abbreviation Ret := (@Ret E _).
#[local] Abbreviation Get := (Get (E:=E)).
#[local] Abbreviation Contains := (Contains (E:=E)).
#[local] Abbreviation Put := (Put (E:=E)).
#[local] Abbreviation Remove := (Remove (E:=E)).
#[local] Abbreviation Size := (Size (E:=E)).
#[local] Abbreviation Keys := (Keys (E:=E)).
#[local] Abbreviation Values := (Values (E:=E)).

(** X8: with the mutex free, [Put(key, value)] makes [Size()] grow by one
    when [Contains(key)] was false and leaves it as it was when
    [Contains(key)] was true; [Remove(key)] makes it shrink by one when
    [Contains(key)] was true and leaves it as it was otherwise. *)
Theorem Size_after_Put_Remove key value w :
  unlocked w →
  ∃ (present : bool) (size : Z),
    Contains key w = (Ret present, w) ∧
    Size w = (Ret size, w) ∧
    (Put key value;; Size) w =
      (Ret (if present then size else (size + 1)%Z),
       with_items (<[key := value]> (items (this w))) w) ∧
    (Remove key;; Size) w =
      (Ret (if present then (size - 1)%Z else size),
       with_items (delete key (items (this w))) w).
Proof.
  intros Hw.
  exists (bool_decide (is_Some (items (this w) !! key))),
         (Z.of_nat (size (items (this w)))).
  split; [by apply Contains_unlocked|]. split; [by apply Size_unlocked|].
  erewrite !bind_Ret by first [by apply Put_unlocked|by apply Remove_unlocked].
  rewrite !Size_unlocked by done. simpl.
  destruct (items (this w) !! key) as [old|] eqn:Hkey.
  - rewrite bool_decide_eq_true_2 by done.
    rewrite map_size_insert_Some, map_size_delete_Some by done.
    assert (size (items (this w)) ≠ 0) by by eapply map_size_ne_0_lookup_2.
    split; do 2 f_equal. lia.
  - rewrite bool_decide_eq_false_2 by by intros [? ?].
    rewrite map_size_insert_None, map_size_delete_None by done.
    split; do 2 f_equal. lia.
Qed.

(** X15: with the mutex free and no entry in the map, as after [New()] or
    [Clear()], [Size()] returns 0, [Keys()] and [Values()] return empty
    results, [Range] returns without calling [action] at all, [Get] finds
    no key and [Remove] returns [false]; none of them changes the state. *)
Theorem empty_map_has_nothing (order : range_order K V)
    (action : K → V → closure E U bool) w :
  unlocked w →
  items (this w) = ∅ →
  Size w = (Ret 0%Z, w) ∧
  Keys order w = (Ret [], w) ∧
  Values order w = (Ret [], w) ∧
  Range order action w = (Ret tt, w) ∧
  ∀ key, Get key w = (Ret (zero_value, false), w) ∧
         Remove key w = (Ret false, w).
Proof.
  intros Hw Hempty.
  assert (order (items (this w)) = []) as Horder.
  { apply Permutation_nil_r. rewrite (enum_perm order), Hempty.
    by rewrite map_to_list_empty. }
  split_and!.
  - rewrite Size_unlocked by done. by rewrite Hempty, map_size_empty.
  - rewrite Keys_unlocked by done. by rewrite Horder.
  - rewrite Values_unlocked by done. by rewrite Horder.
  - revert Hw Hempty Horder. run_unlocked w. intros -> Horder.
    unfold Range. unfold_prog. by rewrite Horder.
  - intros key.
    assert (items (this w) !! key = None) as Hkey
      by (rewrite Hempty; apply lookup_empty).
    rewrite Get_unlocked, Remove_unlocked by done.
    rewrite index_None by done. simpl.
    rewrite delete_id by done. by destruct w as [[g m] u].
Qed.

(** X17: with the mutex free, [Range] calls [action] at most as many times
    as [Size()] counts entries, whatever [action] does, and at least once
    when the map has an entry. *)
Theorem Range_calls_bounded (order : range_order K V)
    (action : K → V → closure E U bool) w :
  unlocked w →
  let observed := λ k v, recording (k, v) (action k v) in
  ∃ r final (size : Z),
    Range order observed (with_env (env w, []) w) = (r, final) ∧
    Size w = (Ret size, w) ∧
    (Z.of_nat (length (env final).2) ≤ size)%Z ∧
    (items (this w) ≠ ∅ → 1 ≤ length (env final).2).
Proof.
  intros Hw observed. revert Hw. run_unlocked w.
  destruct (range_loop_observed action (order g)
              (mkWorld (mkMap g (sync.mkRWMutex 1 false)) (u, [])))
    as (r & u' & calls & Hobs & _ & Hprefix & _ & _ & Hall).
  fold observed in Hobs. unfold with_env in *. simpl in *.
  assert (∃ m', Range order observed (mkWorld (mkMap g sync.zero) (u, [])) =
                  (r, mkWorld (mkMap g m') (u', calls))) as [m' Hrun].
  { unfold Range. unfold_prog. fold observed. rewrite Hobs.
    destruct r as [[]|e| |]; by eexists. }
  exists r, (mkWorld (mkMap g m') (u', calls)), (Z.of_nat (size g)).
  split; [done|]. split; [by rewrite Size_unlocked|]. simpl. split.
  - apply prefix_length in Hprefix.
    rewrite length_fmap, (enum_perm order), length_map_to_list in Hprefix. lia.
  - intros Hentries. destruct calls as [|first calls]; [|simpl; lia].
    destruct Hall as [Hnone _]; [by intros call ?%elem_of_nil|].
    exfalso. apply Hentries, map_to_list_empty_iff, Permutation_nil_r.
    by rewrite <- (enum_perm order), <- Hnone.
Qed.

End Composition.

(** *** The map over every dynamic key *)

(** Unfolding the monad and the field accesses of a method body of
    [anykey]. *)
Ltac unfold_anykey :=
  cbv [mbind mret anykey.prog_bind anykey.prog_ret
       anykey.mu_RLock anykey.mu_RUnlock anykey.mu_Lock anykey.mu_Unlock
       anykey.acquiring anykey.releasing anykey.read_items anykey.write_items
       anykey.deferring anykey.invoke anykey.map_access
       anykey.with_items anykey.with_env anykey.with_mu anykey.unlocked
       anykey.this anykey.env anykey.items anykey.mu
       sync.RLock sync.RUnlock sync.Lock sync.Unlock sync.zero
       sync.readerCount sync.writerHeld].

Section AnyKey.

Import anykey.

Context {K : Type} `{Countable K} {F X V : Type} `{Zero V} {E U : Type}.

Implicit Types (w : anykey.world K F V U) (key : dynamic K F X) (value : V)
  (g : gomap K F V).

#[local] Abbreviation Ret := (@Ret (panic E X) _).
#[local] Abbreviation Blocked := (@Blocked (panic E X) _).
#[local] Abbreviation Panic := (@Panic (panic E X) _).
#[local] Abbreviation Get := (anykey.Get (E:=E) (X:=X)).
#[local] Abbreviation Contains := (anykey.Contains (E:=E) (X:=X)).
#[local] Abbreviation Put := (anykey.Put (E:=E) (X:=X)).
#[local] Abbreviation Remove := (anykey.Remove (E:=E) (X:=X)).
#[local] Abbreviation Size := (anykey.Size (E:=E) (X:=X)).
#[local] Abbreviation Clear := (anykey.Clear (E:=E) (X:=X)).
#[local] Abbreviation Keys := (anykey.Keys (E:=E) (X:=X)).
#[local] Abbreviation Values := (anykey.Values (E:=E) (X:=X)).

Ltac by_mutex w :=
  let g := fresh "g" in let n := fresh "n" in
  let b := fresh "b" in let u := fresh "u" in
  destruct w as [[g [n b]] u].

Lemma anykey_bind_Ret {A B} (c : anykey.prog U A) (k : A → anykey.prog U B)
    w a w' :
  c w = (Ret a, w') → (c ≫= k) w = k a w'.
Proof. unfold mbind, anykey.prog_bind. by intros ->. Qed.

Lemma anykey_Get_any key w :
  Get key w =
    if sync.writerHeld (mu (this w)) then (Blocked, w)
    else match index (items (this w)) key with
         | Done r => (Ret r, w)
         | Unhashed x =>
             (Panic (HashOfUnhashable x),
              with_mu (sync.mkRWMutex (S (sync.readerCount (mu (this w)))) false) w)
         end.
Proof.
  by_mutex w. unfold anykey.Get. unfold_anykey.
  destruct b; [done|]. by destruct (index g key) as [[value found]|x].
Qed.

Lemma anykey_Contains_any key w :
  Contains key w =
    if sync.writerHeld (mu (this w)) then (Blocked, w)
    else match index (items (this w)) key with
         | Done r => (Ret r.2, w)
         | Unhashed x =>
             (Panic (HashOfUnhashable x),
              with_mu (sync.mkRWMutex (S (sync.readerCount (mu (this w)))) false) w)
         end.
Proof.
  unfold anykey.Contains, mbind, anykey.prog_bind. rewrite anykey_Get_any.
  destruct (sync.writerHeld _); [done|].
  by destruct (index _ _) as [[value found]|x].
Qed.

Lemma anykey_Size_any w :
  Size w =
    if sync.writerHeld (mu (this w)) then (Blocked, w)
    else (Ret (Z.of_nat (len (items (this w)))), w).
Proof. by_mutex w. unfold anykey.Size. unfold_anykey. by destruct b. Qed.

Lemma anykey_Keys_any (order : range_order K F X V) w :
  Keys order w =
    if sync.writerHeld (mu (this w)) then (Blocked, w)
    else (Ret (order (items (this w))).*1, w).
Proof.
  by_mutex w. unfold anykey.Keys. unfold_anykey.
  destruct b; [done|]. by rewrite foldl_append.
Qed.

Lemma anykey_Values_any (order : range_order K F X V) w :
  Values order w =
    if sync.writerHeld (mu (this w)) then (Blocked, w)
    else (Ret (order (items (this w))).*2, w).
Proof.
  by_mutex w. unfold anykey.Values. unfold_anykey.
  destruct b; [done|]. by rewrite foldl_append.
Qed.

Lemma anykey_Put_any key value w :
  Put key value w =
    match mu (this w) with
    | sync.mkRWMutex 0 false =>
        match assign (items (this w)) key value with
        | Done g' => (Ret value, with_items g' w)
        | Unhashed x =>
            (Panic (HashOfUnhashable x), with_mu (sync.mkRWMutex 0 true) w)
        end
    | _ => (Blocked, w)
    end.
Proof.
  by_mutex w. unfold anykey.Put. unfold_anykey.
  destruct b, n; try done. by destruct (assign g key value).
Qed.

Lemma anykey_Clear_any w :
  Clear w =
    match mu (this w) with
    | sync.mkRWMutex 0 false => (Ret tt, with_items make w)
    | _ => (Blocked, w)
    end.
Proof. by_mutex w. unfold anykey.Clear. unfold_anykey. by destruct b, n. Qed.

Lemma anykey_Remove_any key w :
  Remove key w =
    if sync.writerHeld (mu (this w)) then (Blocked, w)
    else match index (items (this w)) key with
         | Unhashed x =>
             (Panic (HashOfUnhashable x),
              with_mu (sync.mkRWMutex (S (sync.readerCount (mu (this w)))) false) w)
         | Done (_, false) => (Ret false, w)
         | Done (_, true) =>
             match sync.readerCount (mu (this w)) with
             | 0 =>
                 match delete_key (items (this w)) key with
                 | Done g' => (Ret true, with_items g' w)
                 | Unhashed x =>
                     (Panic (HashOfUnhashable x),
                      with_mu (sync.mkRWMutex 0 true) w)
                 end
             | S _ => (Blocked, w)
             end
         end.
Proof.
  by_mutex w. unfold anykey.Remove, anykey.Get. unfold_anykey.
  destruct b; [done|].
  destruct (index g key) as [[value [|]]|x]; try done.
  destruct n; [|done]. by destruct (delete_key g key).
Qed.

Lemma anykey_ComputeIfAbsent_any key (compFunction : dynamic K F X → closure E U V) w :
  anykey.ComputeIfAbsent key compFunction w =
    if sync.writerHeld (mu (this w)) then (Blocked, w)
    else match index (items (this w)) key with
         | Unhashed x =>
             (Panic (HashOfUnhashable x),
              with_mu (sync.mkRWMutex (S (sync.readerCount (mu (this w)))) false) w)
         | Done (value, true) => (Ret (value, false), w)
         | Done (_, false) =>
             match compFunction key (env w), sync.readerCount (mu (this w)) with
             | (Returns value, u'), 0 =>
                 match assign (items (this w)) key value with
                 | Done g' => (Ret (value, true), with_env u' (with_items g' w))
                 | Unhashed x =>
                     (Panic (HashOfUnhashable x),
                      with_env u' (with_mu (sync.mkRWMutex 0 true) w))
                 end
             | (Returns value, u'), S _ => (Blocked, with_env u' w)
             | (Panics e, u'), _ => (Panic (Raised e), with_env u' w)
             end
         end.
Proof.
  by_mutex w. unfold anykey.ComputeIfAbsent, anykey.Get, anykey.Put.
  unfold_anykey. destruct b; [done|].
  destruct (index g key) as [[value [|]]|x]; try done. cbn [negb].
  destruct (compFunction key u) as [[computed|e] u']; [|done].
  destruct n; [|done]. by destruct (assign g key computed).
Qed.

(** Running a method of [anykey] on a world whose mutex is free. *)
Ltac run_free w :=
  let g := fresh "g" in let m := fresh "m" in let u := fresh "u" in
  destruct w as [[g m] u]; unfold anykey.unlocked; simpl; intros ->.

Lemma anykey_Get_unlocked key w r :
  unlocked w → index (items (this w)) key = Done r → Get key w = (Ret r, w).
Proof.
  intros Hw Hindex. rewrite anykey_Get_any, Hindex.
  unfold unlocked in Hw. by rewrite Hw.
Qed.

Lemma anykey_Put_unlocked key value w g' :
  unlocked w → assign (items (this w)) key value = Done g' →
  Put key value w = (Ret value, with_items g' w).
Proof.
  intros Hw Hassign. rewrite anykey_Put_any, Hassign.
  unfold unlocked in Hw. by rewrite Hw.
Qed.

Lemma index_Plain g (k : K) :
  index g (Plain k) =
  Done (X:=X) (match plain g !! k with
               | Some value => (value, true)
               | None => (zero_value, false)
               end).
Proof. unfold index. simpl. by destruct (plain g !! k). Qed.

(** C1, amended: with the mutex free, [Get] of a key that is not in the map
    returns the zero value and [found = false] and changes nothing.  For a
    key with [key == key], [Put(key, value)] followed by [Get(key)] returns
    [(value, true)], and after [Put(key, v1)] and [Put(key, v2)] the call
    [Get(key)] returns [(v2, true)], in the state one [Put(key, v2)] leaves:
    the last write wins.  For a key with [key != key], [Put(key, value)]
    adds an entry and [Get(key)] still returns [found = false]. *)
Theorem Get_Put_self_equal_key key (value v1 v2 : V) w :
  unlocked w →
  (lookup (items (this w)) key = Done None →
     Get key w = (Ret (zero_value, false), w)) ∧
  (self_equal key = true →
     ∃ g1 g2,
       assign (items (this w)) key value = Done g1 ∧
       (Put key value;; Get key) w = (Ret (value, true), with_items g1 w) ∧
       assign (items (this w)) key v2 = Done g2 ∧
       (Put key v1;; Put key v2;; Get key) w =
         (Ret (v2, true), with_items g2 w)) ∧
  (∀ f, key = Irreflexive f →
     (Put key value;; Get key) w =
       (Ret (zero_value, false),
        with_items (mkGomap (plain (items (this w)))
                      (irreflexive (items (this w)) ++ [(f, value)])) w)).
Proof.
  intros Hw. split_and!.
  - intros Habsent. apply anykey_Get_unlocked; [done|].
    unfold index. by rewrite Habsent.
  - destruct key as [k|f|x]; [intros _|done|done].
    eexists _, _. split; [done|]. split; [|split; [done|]].
    + erewrite anykey_bind_Ret by by apply anykey_Put_unlocked.
      apply anykey_Get_unlocked; [done|].
      rewrite index_Plain. simpl. by rewrite lookup_insert_eq.
    + erewrite anykey_bind_Ret by by apply anykey_Put_unlocked.
      erewrite anykey_bind_Ret by by apply anykey_Put_unlocked.
      unfold with_items. simpl. rewrite insert_insert_eq.
      apply anykey_Get_unlocked; [done|].
      rewrite index_Plain. simpl. by rewrite lookup_insert_eq.
  - intros f ->.
    erewrite anykey_bind_Ret by by apply anykey_Put_unlocked.
    by apply anykey_Get_unlocked.
Qed.

(** *** Panics and locks, over every key *)

Lemma index_Unhashed g key x : index g key = Unhashed x → key = Unhashable x.
Proof.
  unfold index. destruct key as [k|f|x']; simpl; [|done|by intros [= ->]].
  by destruct (plain g !! k).
Qed.

Lemma assign_Unhashed g key value x :
  assign g key value = Unhashed x → key = Unhashable x.
Proof. destruct key; simpl; [done|done|by intros [= ->]]. Qed.

Lemma anykey_range_loop_ends (action : dynamic K F X → V → closure E U bool)
    es w r w' :
  range_loop action es w = (r, w') →
  this w' = this w ∧ (r = Ret tt ∨ ∃ e, r = Panic (Raised e)).
Proof.
  revert w. induction es as [|[key value] rest IH]; intros [m u]; simpl.
  - intros [= <- <-]. split; [done|by left].
  - unfold mbind, anykey.prog_bind, anykey.invoke. simpl.
    destruct (action key value u) as [[[]|e] u0]; simpl.
    + intros Hrest. by apply IH in Hrest.
    + intros [= <- <-]. split; [done|by left].
    + intros [= <- <-]. split; [done|]. right. by exists e.
Qed.

Lemma anykey_Range_any (order : range_order K F X V)
    (action : dynamic K F X → V → closure E U bool) w :
  if sync.writerHeld (mu (this w)) then anykey.Range order action w = (Blocked, w)
  else ∃ r u',
    range_loop action (order (items (this w)))
      (with_mu (sync.mkRWMutex (S (sync.readerCount (mu (this w)))) false) w) =
      (r, with_env u'
            (with_mu (sync.mkRWMutex (S (sync.readerCount (mu (this w)))) false) w)) ∧
    ((r = Ret tt ∧ anykey.Range order action w = (Ret tt, with_env u' w)) ∨
     (∃ e, r = Panic (Raised e) ∧
           anykey.Range order action w =
             (Panic (Raised e),
              with_env u'
                (with_mu (sync.mkRWMutex (S (sync.readerCount (mu (this w)))) false)
                   w)))).
Proof.
  by_mutex w. simpl. destruct b.
  - unfold anykey.Range. by unfold_anykey.
  - destruct (range_loop action (order g)
                (mkWorld (mkMap g (sync.mkRWMutex (S n) false)) u))
      as [r [m1 u1]] eqn:Hloop.
    destruct (anykey_range_loop_ends _ _ _ _ _ Hloop) as [Hthis Hr].
    simpl in Hthis. subst m1. exists r, u1. unfold with_env, with_mu. simpl.
    split; [done|].
    unfold anykey.Range. unfold_anykey. rewrite Hloop.
    destruct Hr as [->|[e ->]].
    + by left.
    + right. by exists e.
Qed.

(** How a call can end, and what it has done to [m] by then. *)
Lemma anykey_call_outcomes (o : op K F X V E U) w :
  match call o w with
  | (concurrentmap.Ret _, w') => mu (this w') = mu (this w)
  | (concurrentmap.Panic (Raised _), w') =>
      takes_closure o = true ∧ items (this w') = items (this w) ∧
      sync.writerHeld (mu (this w')) = false
  | (concurrentmap.Panic (HashOfUnhashable x), w') =>
      hashed_key o = Some (Unhashable x) ∧ items (this w') = items (this w) ∧
      mu (this w') = held_when_hashing o (mu (this w))
  | (concurrentmap.Blocked, w') => this w' = this w ∧ ¬ unlocked w
  | (concurrentmap.Fatal, _) => False
  end.
Proof.
  destruct o; simpl; unfold mbind, anykey.prog_bind.
  - pose proof (anykey_Range_any order action w) as Hrange. by_mutex w.
    simpl in Hrange. destruct b.
    + rewrite Hrange. by split.
    + destruct Hrange as (r & u' & _ & [[_ ->]|(e & _ & ->)]); by simpl.
  - rewrite anykey_Values_any. by_mutex w. by destruct b.
  - rewrite anykey_Keys_any. by_mutex w. by destruct b.
  - rewrite anykey_Get_any. by_mutex w. simpl. destruct b; [done|].
    destruct (index g key) as [r|x] eqn:Hindex; [done|].
    by apply index_Unhashed in Hindex as ->.
  - rewrite anykey_Contains_any. by_mutex w. simpl. destruct b; [done|].
    destruct (index g key) as [r|x] eqn:Hindex; [done|].
    by apply index_Unhashed in Hindex as ->.
  - rewrite anykey_Put_any. by_mutex w. simpl. destruct b, n; try done.
    destruct (assign g key value) as [g'|x] eqn:Hassign; [done|].
    by apply assign_Unhashed in Hassign as ->.
  - rewrite anykey_ComputeIfAbsent_any. by_mutex w. simpl.
    destruct b; [done|].
    destruct (index g key) as [[value [|]]|x] eqn:Hindex; [done| |].
    + destruct (compFunction key u) as [[computed|e] u']; [|done].
      destruct n; [|done].
      destruct (assign g key computed) as [g'|x] eqn:Hassign; [done|].
      apply assign_Unhashed in Hassign as ->. by unfold index in Hindex.
    + by apply index_Unhashed in Hindex as ->.
  - rewrite anykey_Remove_any. by_mutex w. simpl. destruct b; [done|].
    destruct (index g key) as [[value [|]]|x] eqn:Hindex; [|done|].
    + destruct n; [|done].
      destruct key as [k|f|x]; [done|done|]. by unfold index in Hindex.
    + by apply index_Unhashed in Hindex as ->.
  - rewrite anykey_Size_any. by_mutex w. by destruct b.
  - rewrite anykey_Clear_any. by_mutex w. by destruct b, n.
Qed.

(** X2: over every key and in every state of the mutex, no call ends in the
    fatal error of unlocking a mutex that is not locked.  A call panics in
    two cases only, and has not changed the items of the map by then.  It
    panics with the runtime error of hashing when its key cannot be hashed:
    no unlock is deferred, so [Put] then still holds the write lock and
    [Get], [Contains], [ComputeIfAbsent] and [Remove] still hold their read
    lock; with the mutex free every call on such a key ends so.  And it
    panics with the value its closure panicked with: only [Range] and
    [ComputeIfAbsent] do, and never holding the write lock. *)
Theorem call_panics_with_lock_held (o : op K F X V E U) w :
  (call o w).1 ≠ Fatal ∧
  (∀ x, (call o w).1 = Panic (HashOfUnhashable x) →
        hashed_key o = Some (Unhashable x) ∧
        items (this (call o w).2) = items (this w) ∧
        mu (this (call o w).2) = held_when_hashing o (mu (this w))) ∧
  (∀ e, (call o w).1 = Panic (Raised e) →
        takes_closure o = true ∧
        items (this (call o w).2) = items (this w) ∧
        sync.writerHeld (mu (this (call o w).2)) = false) ∧
  (∀ x, unlocked w → hashed_key o = Some (Unhashable x) →
        (call o w).1 = Panic (HashOfUnhashable x)).
Proof.
  split_and!.
  - pose proof (anykey_call_outcomes o w) as Hout.
    by destruct (call o w) as [[[]|[e|x]| |] w'].
  - pose proof (anykey_call_outcomes o w) as Hout.
    destruct (call o w) as [[[]|[e|x']| |] w']; simpl; try done.
    by intros x [= <-].
  - pose proof (anykey_call_outcomes o w) as Hout.
    destruct (call o w) as [[[]|[e'|x]| |] w']; simpl; try done.
  - intros x. run_free w.
    destruct o; simpl; try done; intros [= ->];
      unfold mbind, anykey.prog_bind;
      rewrite ?anykey_Get_any, ?anykey_Contains_any, ?anykey_Put_any,
        ?anykey_ComputeIfAbsent_any, ?anykey_Remove_any; done.
Qed.

(** *** Entries, keys and values, over every key *)

Lemma plain_keys_entries g :
  plain_keys (X:=X) (entries g).*1 = (map_to_list (plain g)).*1.
Proof.
  unfold plain_keys, entries. rewrite fmap_app, omap_app.
  assert (∀ l : list (F * V),
            omap (λ key : dynamic K F X,
                    match key with Plain k => Some k | _ => None end)
              (prod_map Irreflexive id <$> l).*1 = []) as ->.
  { intros l. by induction l as [|[f v] l IH]. }
  rewrite app_nil_r.
  induction (map_to_list (plain g)) as [|[k v] l IH]; [done|].
  simpl. by f_equal.
Qed.

Lemma elem_of_entries g key value :
  (key, value) ∈ entries (X:=X) g ↔
  match key with
  | Plain k => plain g !! k = Some value
  | Irreflexive f => (f, value) ∈ irreflexive g
  | Unhashable _ => False
  end.
Proof.
  unfold entries. rewrite elem_of_app, !list_elem_of_fmap. split.
  - intros [([k v] & [= -> ->] & Hin)|([f v] & [= -> ->] & Hin)]; simpl.
    + by apply elem_of_map_to_list.
    + done.
  - destruct key as [k|f|x]; [| |done].
    + intros Hk. left. exists (k, value). split; [done|].
      by apply elem_of_map_to_list.
    + intros Hf. right. by exists (f, value).
Qed.

Lemma length_entries g : length (entries (X:=X) g) = len g.
Proof.
  unfold entries, len.
  by rewrite length_app, !length_fmap, length_map_to_list.
Qed.

Lemma anykey_Contains_unlocked key w :
  unlocked w →
  Contains key w =
    match key with
    | Plain k => (Ret (bool_decide (is_Some (plain (items (this w)) !! k))), w)
    | Irreflexive _ => (Ret false, w)
    | Unhashable x =>
        (Panic (HashOfUnhashable x), with_mu (sync.mkRWMutex 1 false) w)
    end.
Proof.
  run_free w. rewrite anykey_Contains_any. simpl.
  destruct key as [k|f|x]; [|done|done].
  rewrite index_Plain. destruct (plain g !! k); cbn [snd].
  - by rewrite bool_decide_eq_true_2.
  - by rewrite bool_decide_eq_false_2 by by intros [? ?].
Qed.


(** X10: with the mutex free, a value is in the result of [Values()]
    exactly when [Get] returns it, with [found = true], for some key, or it
    is stored under a key with [key != key], which no [Get] finds. *)
Theorem Values_lists_stored_values_any (order : range_order K F X V) w :
  unlocked w →
  ∃ vs, Values order w = (Ret vs, w) ∧
        ∀ value, value ∈ vs ↔
                 (∃ key, Get key w = (Ret (value, true), w)) ∨
                 (∃ f, (f, value) ∈ irreflexive (items (this w))).
Proof.
  intros Hw. exists (order (items (this w))).*2.
  pose proof (enum_perm order (items (this w))) as Hperm.
  split.
  { rewrite anykey_Values_any. unfold unlocked in Hw. by rewrite Hw. }
  intros value. rewrite Hperm, list_elem_of_fmap. split.
  - intros ([key v] & -> & Hin%elem_of_entries).
    destruct key as [k|f|x]; [|by right; exists f|done].
    left. exists (Plain k). apply anykey_Get_unlocked; [done|].
    rewrite index_Plain. by rewrite Hin.
  - intros [[key Hget]|[f Hf]].
    + rewrite anykey_Get_any in Hget. unfold unlocked in Hw.
      rewrite Hw in Hget. simpl in Hget.
      destruct key as [k|f|x]; [|done|done].
      rewrite index_Plain in Hget.
      destruct (plain (items (this w)) !! k) as [v|] eqn:Hk; [|done].
      injection Hget as ->.
      exists (Plain k, value). split; [done|]. by apply elem_of_entries.
    + exists (Irreflexive f, value). split; [done|]. by apply elem_of_entries.
Qed.

(** *** How the methods compose, over every key *)

(** X11: with the mutex free and a key with [key == key], [Put(key, value)]
    followed by [Remove(key)] on a map without [key] ends in the state it
    started from, and so does [Remove(key)] followed by [Put] of the value
    the map held for [key].  For a key with [key != key] there is no way
    back: [Remove(key)] after [Put(key, value)] returns [false] and the
    entry stays. *)
Theorem Put_Remove_round_trip_any key value w :
  unlocked w →
  (self_equal key = true → lookup (items (this w)) key = Done None →
     (Put key value;; Remove key) w = (Ret true, w)) ∧
  (∀ old, lookup (items (this w)) key = Done (Some old) →
     (Remove key;; Put key old) w = (Ret old, w)) ∧
  (∀ f, key = Irreflexive f →
     (Put key value;; Remove key) w =
       (Ret false,
        with_items (mkGomap (plain (items (this w)))
                      (irreflexive (items (this w)) ++ [(f, value)])) w)).
Proof.
  run_free w. destruct g as [p l]. unfold mbind, anykey.prog_bind.
  rewrite anykey_Put_any. simpl. split_and!.
  - destruct key as [k|f|x]; [intros _|done|done]. simpl. intros [= Hk].
    rewrite anykey_Remove_any. simpl. rewrite index_Plain. simpl.
    rewrite lookup_insert_eq. unfold with_items. simpl.
    by rewrite delete_insert_id.
  - intros old. destruct key as [k|f|x]; simpl; [|done|done]. intros [= Hk].
    rewrite anykey_Remove_any. simpl. rewrite index_Plain. simpl. rewrite Hk.
    rewrite anykey_Put_any. unfold with_items. simpl.
    by rewrite insert_delete_id.
  - intros f ->. simpl. by rewrite anykey_Remove_any.
Qed.

(** X12: with the mutex free, two [Put] on hashable keys that are not [==]
    leave the same entries in either order.  A [Put] made twice on a key
    with [key == key] ends where one [Put] does; made twice on a key with
    [key != key] it leaves two entries. *)
Theorem Put_commutes_unless_equal key1 key2 (v1 v2 : V) w :
  unlocked w →
  (hashable key1 = true → hashable key2 = true → go_equal key1 key2 = false →
     ∃ g12 g21,
       (Put key1 v1;; Put key2 v2) w = (Ret v2, with_items g12 w) ∧
       (Put key2 v2;; Put key1 v1) w = (Ret v1, with_items g21 w) ∧
       same_entries g12 g21) ∧
  (self_equal key1 = true → (Put key1 v1;; Put key1 v1) w = Put key1 v1 w) ∧
  (∀ f, key1 = Irreflexive f →
     (Put key1 v1;; Put key1 v1) w =
       (Ret v1,
        with_items (mkGomap (plain (items (this w)))
                      (irreflexive (items (this w)) ++ [(f, v1); (f, v1)])) w)).
Proof.
  run_free w. destruct g as [p l]. unfold mbind, anykey.prog_bind.
  split_and!.
  - intros H1 H2 Hne. rewrite !anykey_Put_any. simpl.
    destruct key1 as [k1|f1|x1], key2 as [k2|f2|x2]; try done; simpl;
      rewrite !anykey_Put_any; simpl; eexists _, _; unfold with_items; simpl;
      (split; [done|]); (split; [done|]); split; simpl; try done.
    + apply bool_decide_eq_false_1 in Hne. by apply insert_insert_ne.
    + rewrite <- !app_assoc. simpl. apply Permutation_app_head, perm_swap.
  - destruct key1 as [k|f|x]; [intros _|done|done].
    rewrite !anykey_Put_any. simpl. rewrite anykey_Put_any.
    unfold with_items. simpl. by rewrite insert_insert_eq.
  - intros f ->. rewrite anykey_Put_any. simpl. rewrite anykey_Put_any.
    unfold with_items. simpl. by rewrite <- app_assoc.
Qed.

(** X13: with the mutex free and [key] not in the map, for a key with
    [key == key], once [ComputeIfAbsent(key, f1)] has stored the value [f1]
    returned, a second [ComputeIfAbsent(key, f2)] returns that value with
    [computed = false] and does not call [f2].  For a key with
    [key != key] the second call finds nothing: it calls [f2], returns its
    value with [computed = true] and adds a second entry. *)
Theorem ComputeIfAbsent_computes_once_any key
    (f1 f2 : dynamic K F X → closure E U V) w value u' :
  unlocked w →
  lookup (items (this w)) key = Done None →
  f1 key (env w) = (Returns value, u') →
  (self_equal key = true →
     ∃ g', assign (items (this w)) key value = Done g' ∧
           (anykey.ComputeIfAbsent key f1;; anykey.ComputeIfAbsent key f2) w =
             (Ret (value, false), with_env u' (with_items g' w))) ∧
  (∀ f value2 u'', key = Irreflexive f →
     f2 key u' = (Returns value2, u'') →
     (anykey.ComputeIfAbsent key f1;; anykey.ComputeIfAbsent key f2) w =
       (Ret (value2, true),
        with_env u''
          (with_items (mkGomap (plain (items (this w)))
                         (irreflexive (items (this w)) ++ [(f, value); (f, value2)]))
             w))).
Proof.
  run_free w. destruct g as [p l]. intros Hkey Hf1.
  unfold mbind, anykey.prog_bind. rewrite anykey_ComputeIfAbsent_any. simpl.
  split.
  - destruct key as [k|f|x]; [intros _|done|done]. simpl in Hkey.
    injection Hkey as Hk. eexists. split; [done|].
    rewrite index_Plain. simpl. rewrite Hk, Hf1. simpl.
    rewrite anykey_ComputeIfAbsent_any. simpl. rewrite index_Plain. simpl.
    by rewrite lookup_insert_eq.
  - intros f value2 u'' -> Hf2. simpl. rewrite Hf1. simpl.
    rewrite anykey_ComputeIfAbsent_any. simpl. rewrite Hf2.
    unfold with_env, with_items. simpl. by rewrite <- app_assoc.
Qed.

(** X14: with the mutex free, whenever [ComputeIfAbsent(key, f)] returns
    [(value, computed)], [computed] is the negation of what [Contains(key)]
    returned before the call and every key that is not [==] to [key] holds
    what it held; a following [Get(key)] returns [(value, true)] for a key
    with [key == key], and [found = false] for a key with [key != key]. *)
Theorem ComputeIfAbsent_value_is_stored_any key
    (compFunction : dynamic K F X → closure E U V) w value computed w' :
  unlocked w →
  anykey.ComputeIfAbsent key compFunction w = (Ret (value, computed), w') →
  Contains key w = (Ret (negb computed), w) ∧
  Get key w' =
    (Ret (if self_equal key then (value, true) else (zero_value, false)), w') ∧
  (∀ key', go_equal key' key = false →
           lookup (items (this w')) key' = lookup (items (this w)) key').
Proof.
  intros Hw. rewrite anykey_Contains_unlocked by done. revert Hw.
  run_free w. destruct g as [p l].
  rewrite anykey_ComputeIfAbsent_any. simpl.
  destruct key as [k|f|x]; [| |done]; simpl.
  - rewrite index_Plain. simpl.
    destruct (p !! k) as [old|] eqn:Hk.
    + intros [= <- <- <-]. rewrite bool_decide_eq_true_2 by done.
      split; [done|]. split; [|done].
      apply anykey_Get_unlocked; [done|]. rewrite index_Plain. simpl.
      by rewrite Hk.
    + destruct (compFunction (Plain k) u) as [[v|e] u']; [|done].
      intros [= <- <- <-]. rewrite bool_decide_eq_false_2 by by intros [? ?].
      split; [done|]. split.
      * apply anykey_Get_unlocked; [done|]. rewrite index_Plain. simpl.
        by rewrite lookup_insert_eq.
      * intros [k'|f'|x']; simpl; [|done|done].
        intros Hne%bool_decide_eq_false_1. f_equal.
        apply lookup_insert_ne. congruence.
  - destruct (compFunction (Irreflexive f) u) as [[v|e] u']; [|done].
    intros [= <- <- <-]. split; [done|]. split; [|by intros [| |]].
    by apply anykey_Get_unlocked.
Qed.

(** The loop of [Range] on an observed [action] that always returns
    [true]: one call for each entry, in order. *)
Lemma anykey_range_loop_always (action : dynamic K F X → V → closure E U bool)
    (es : list (dynamic K F X * V))
    (w : world K F V (U * list (dynamic K F X * V * completion E bool))) :
  (∀ k v u, (action k v u).1 = Returns true) →
  ∃ u' new,
    range_loop (λ k v, recording (k, v) (action k v)) es w =
      (Ret tt, with_env (u', (env w).2 ++ new) w) ∧
    new.*1 = es.
Proof.
  intros Halways. revert w.
  induction es as [|[key value] rest IH]; intros [m [u calls]].
  - exists u, []. simpl. unfold with_env. simpl. by rewrite app_nil_r.
  - simpl. unfold mbind, anykey.prog_bind, anykey.invoke, recording at 1. simpl.
    specialize (Halways key value u).
    destruct (action key value u) as [r u0]. simpl in Halways. subst r. simpl.
    destruct (IH (mkWorld m (u0, calls ++ [((key, value), Returns true)])))
      as (u' & new & Hloop & Hnew).
    exists u', (((key, value), Returns true) :: new).
    unfold with_env in *. simpl in *. rewrite Hloop, <- app_assoc. simpl.
    split; [done|]. by f_equal.
Qed.

(** X16: with the mutex free, a [Range] whose [action] always returns
    [true] has called [action] once on every entry of the map.  For a key
    with [key == key], [action] was called on [(key, value)] exactly when
    [Get(key)] returns [(value, true)], and on no such key twice; the
    entries under keys with [key != key] are visited too, and [Get] finds
    none of them. *)
Theorem Range_visits_every_entry (order : range_order K F X V)
    (action : dynamic K F X → V → closure E U bool) w :
  unlocked w →
  (∀ k v u, (action k v u).1 = Returns true) →
  let observed := λ k v, recording (k, v) (action k v) in
  ∃ u' calls,
    anykey.Range order observed (with_env (env w, []) w) =
      (Ret tt, with_env (u', calls) w) ∧
    calls.*1 ≡ₚ entries (items (this w)) ∧
    NoDup (plain_keys calls.*1.*1) ∧
    (∀ key value, self_equal key = true →
       ((key, value) ∈ calls.*1 ↔ Get key w = (Ret (value, true), w))) ∧
    (∀ key value, self_equal key = false → (key, value) ∈ calls.*1 →
       Get key w = (Ret (zero_value, false), w)).
Proof.
  intros Hw Halways observed. revert Hw. run_free w.
  destruct (anykey_range_loop_always action (order g)
              (mkWorld (mkMap g (sync.mkRWMutex 1 false)) (u, [])) Halways)
    as (u' & calls & Hloop & Hcalls).
  fold observed in Hloop. unfold with_env in *. simpl in *.
  exists u', calls. split_and!.
  - unfold anykey.Range. unfold_anykey. fold observed. by rewrite Hloop.
  - rewrite Hcalls. apply enum_perm.
  - assert (plain_keys calls.*1.*1 ≡ₚ plain_keys (X:=X) (entries g).*1) as ->.
    { unfold plain_keys. by rewrite Hcalls, (enum_perm order). }
    rewrite plain_keys_entries. apply NoDup_fst_map_to_list.
  - intros key value Hself. rewrite Hcalls, (enum_perm order), elem_of_entries.
    destruct key as [k|f|x]; [|done|done].
    rewrite anykey_Get_any. simpl. rewrite index_Plain.
    destruct (plain g !! k) as [v|]; naive_solver.
  - intros key value Hself. rewrite Hcalls, (enum_perm order), elem_of_entries.
    destruct key as [k|f|x]; [done| |done]. intros _.
    by apply anykey_Get_unlocked.
Qed.

End AnyKey.

(** *** The two embeddings agree on keys with [key == key] *)

Section Agreement.

Context {K : Type} `{Countable K} {F X V : Type} `{Zero V} {E U : Type}.

#[local] Abbreviation Plain := (@anykey.Plain K F X).
#[local] Abbreviation as_anykey := (as_anykey (X:=X) (E:=E)).

(** On a key with [key == key], in every state of the mutex and whatever
    entries the map holds under keys with [key != key], the methods over
    every key do what the methods over [gmap] keys do, and leave those
    other entries alone. *)
Lemma anykey_agrees_on_plain_keys (k : K) (value : V)
    (compFunction : anykey.dynamic K F X → closure E U V)
    (loose : list (F * V)) (w : world K V U) :
  anykey.Get (Plain k) (among_all_keys loose w) =
    as_anykey loose (Get k w) ∧
  anykey.Contains (Plain k) (among_all_keys loose w) =
    as_anykey loose (Contains k w) ∧
  anykey.Put (Plain k) value (among_all_keys loose w) =
    as_anykey loose (Put k value w) ∧
  anykey.Remove (Plain k) (among_all_keys loose w) =
    as_anykey loose (Remove k w) ∧
  anykey.ComputeIfAbsent (Plain k) compFunction (among_all_keys loose w) =
    as_anykey loose
      (ComputeIfAbsent k (λ k', compFunction (Plain k')) w).
Proof.
  rewrite anykey_Get_any, anykey_Contains_any, anykey_Put_any,
    anykey_Remove_any, anykey_ComputeIfAbsent_any.
  rewrite Get_any, Contains_any, Put_any, Remove_any, ComputeIfAbsent_any.
  destruct w as [[g [n b]] u]. unfold as_anykey, among_all_keys. simpl.
  rewrite !index_Plain. unfold index. simpl.
  destruct b, n; simpl; try done;
    destruct (g !! k) as [old|]; simpl; try done;
    by destruct (compFunction (Plain k) u) as [[computed|e] u'].
Qed.

End Agreement.

(** *** The properties on the specification's example *)

(** [m := New(); m.Put("a",1); m.Put("b",2); m.Size() == 2;
     v,ok := m.Get("a"); m.Remove("a"); m.Size() == 1; m.Clear();
     m.Size() == 0]. *)
Example end_to_end :
  (Put (E:=string) (Str "a") (Int 1);;
   Put (Str "b") (Int 2);;
   size2 ← Size;
   '(v, ok) ← Get (Str "a");
   Remove (Str "a");;
   size1 ← Size;
   Clear;;
   size0 ← Size;
   mret (size2, v, ok, size1, size0)) (mkWorld New tt)
  = (Ret (2%Z, Int 1, true, 1%Z, 0%Z), mkWorld New tt).
Proof. reflexivity. Qed.

Lemma ComputeIfAbsent_calls_once_witness :
  unlocked ab_counting ∧
  ComputeIfAbsent (Str "c") (λ k, recording k (numbering k))
      (with_env (0, []) ab_counting) =
    (Ret (Int 0, true),
     with_env (1, [(Str "c", Returns (Int 0))])
       (with_items (<[Str "c" := Int 0]> ab_items) ab_counting)) ∧
  ComputeIfAbsent (Str "a") (λ k, recording k (numbering k))
      (with_env (0, []) ab_counting) =
    (Ret (Int 1, false), with_env (0, []) ab_counting).
Proof.
  assert (unlocked ab_counting) as Hw by reflexivity.
  split; [exact Hw|].
  destruct (ComputeIfAbsent_calls_once (Str "c") numbering ab_counting [] Hw)
    as [Habsent _].
  destruct (ComputeIfAbsent_calls_once (Str "a") numbering ab_counting [] Hw)
    as [_ Hpresent].
  split.
  - apply (Habsent (Int 0) 1); reflexivity.
  - apply (Hpresent (Int 1)). reflexivity.
Defined.

Lemma ComputeIfAbsent_panic_propagates_witness :
  unlocked ab_counting ∧
  ∃ w', ComputeIfAbsent (Str "c") refusing ab_counting = (Panic "no value", w') ∧
        this w' = this ab_counting ∧ env w' = 0 ∧
        items (this w') !! Str "c" = None.
Proof.
  assert (unlocked ab_counting) as Hw by reflexivity.
  split; [exact Hw|].
  apply (ComputeIfAbsent_panic_propagates (Str "c") refusing ab_counting
           "no value" 0 Hw); reflexivity.
Defined.

Lemma Remove_present_absent_witness :
  unlocked ab_world ∧
  (Remove (E:=string) (Str "a");; Get (Str "a")) ab_world =
    (Ret (Nil, false), with_items (delete (Str "a") ab_items) ab_world) ∧
  Remove (E:=string) (Str "c") ab_world = (Ret false, ab_world).
Proof.
  assert (unlocked ab_world) as Hw by reflexivity.
  split; [exact Hw|]. split.
  - apply (Remove_present_absent (E:=string) (Str "a") ab_world Hw).
    by exists (Int 1).
  - apply (Remove_present_absent (E:=string) (Str "c") ab_world Hw).
    reflexivity.
Defined.

Lemma Clear_empties_witness :
  unlocked ab_world ∧
  (Clear (E:=string);; Size) ab_world = (Ret 0%Z, with_items ∅ ab_world) ∧
  (Clear (E:=string);; Get (Str "b")) ab_world =
    (Ret (Nil, false), with_items ∅ ab_world).
Proof.
  assert (unlocked ab_world) as Hw by reflexivity.
  split; [exact Hw|].
  destruct (Clear_empties (E:=string) ab_world Hw) as (Hsize & Hget & _).
  split; [exact Hsize|]. apply Hget. by exists (Int 2).
Defined.

Lemma Contains_is_found_of_Get_witness :
  unlocked ab_world ∧
  Contains (E:=string) (Str "a") ab_world = (Ret true, ab_world).
Proof.
  assert (unlocked ab_world) as Hw by reflexivity.
  split; [exact Hw|].
  apply (proj2 (Contains_is_found_of_Get (E:=string) (Str "a") ab_world) Hw).
Defined.

Lemma Put_Remove_frame_witness :
  unlocked ab_world ∧ Str "a" ≠ Str "b" ∧
  ∃ w', Put (E:=string) (Str "a") (Int 5) ab_world = (Ret (Int 5), w') ∧
        items (this w') !! Str "b" = items (this ab_world) !! Str "b" ∧
        Get (E:=string) (Str "b") w' = (Ret (Int 2, true), w').
Proof.
  assert (unlocked ab_world) as Hw by reflexivity.
  assert (Str "a" ≠ Str "b") as Hne by discriminate.
  split; [exact Hw|]. split; [exact Hne|].
  apply (Put_Remove_frame (E:=string) (Str "a") (Str "b") (Int 5) ab_world Hw Hne).
Defined.

(** [Range] over [{"a": 1, "b": 2}], ["a"] first, with an action that
    returns [false] on ["b"]: two calls, the second one the last. *)
Example Range_until_b :
  Range (E:=string) forwards (λ k v, recording (k, v) (until_b k v))
    (with_env (0, []) ab_counting) =
  (Ret tt,
   with_env (2, [((Str "a", Int 1), Returns true); ((Str "b", Int 2), Returns false)])
     ab_counting).
Proof. reflexivity. Qed.

(** The same map, ["b"] first: the action is called once. *)
Example Range_until_b_backwards :
  Range (E:=string) backwards (λ k v, recording (k, v) (until_b k v))
    (with_env (0, []) ab_counting) =
  (Ret tt, with_env (1, [((Str "b", Int 2), Returns false)]) ab_counting).
Proof. reflexivity. Qed.

Lemma Range_visits_until_false_witness :
  unlocked ab_counting ∧
  ∃ r u' calls w',
    Range (E:=string) forwards (λ k v, recording (k, v) (until_b k v))
      (with_env (0, []) ab_counting) = (r, w') ∧
    env w' = (u', calls) ∧
    calls.*1 `prefix_of` map_to_list ab_items ∧
    (∀ i entry, calls !! i = Some (entry, Returns false) → length calls = S i).
Proof.
  assert (unlocked ab_counting) as Hw by reflexivity.
  split; [exact Hw|].
  destruct (Range_visits_until_false (E:=string) forwards until_b ab_counting Hw)
    as (r & u' & calls & w' & Hrun & Henv & _ & _ & Hprefix & Hstop & _).
  exists r, u', calls, w'. split_and!; assumption.
Defined.

(** C6 as stated fails: on the map [{"a": 1, "b": 2}], when the loop of
    [Keys] enumerates ["a"] before ["b"] and the loop of [Values]
    enumerates ["b"] before ["a"], [Keys()] returns [["a"; "b"]] and
    [Values()] returns [[2; 1]]: index 0 pairs ["a"] with 2, and the map
    holds 1 for ["a"]. *)
Lemma Keys_Values_orders_differ :
  ¬ Keys_Values_correspond (E:=string) forwards backwards ab_world.
Proof.
  intros (ks & vs & Hks & Hvs & _ & _ & Hpairs).
  assert (Keys (E:=string) forwards ab_world = (Ret [Str "a"; Str "b"], ab_world))
    as Hkeys by reflexivity.
  assert (Values (E:=string) backwards ab_world = (Ret [Int 2; Int 1], ab_world))
    as Hvalues by reflexivity.
  rewrite Hkeys in Hks. rewrite Hvalues in Hvs.
  injection Hks as <-. injection Hvs as <-.
  specialize (Hpairs 0 (Str "a") (Int 2) eq_refl eq_refl).
  vm_compute in Hpairs. discriminate.
Qed.

Lemma Keys_Values_of_entries_witness :
  unlocked ab_world ∧
  ∃ ks vs,
    Keys (E:=string) forwards ab_world = (Ret ks, ab_world) ∧
    Values (E:=string) backwards ab_world = (Ret vs, ab_world) ∧
    Size (E:=string) ab_world = (Ret (Z.of_nat (length ks)), ab_world) ∧
    length ks = length vs.
Proof.
  assert (unlocked ab_world) as Hw by reflexivity.
  split; [exact Hw|].
  destruct (Keys_Values_of_entries (E:=string) forwards backwards ab_world Hw)
    as (ks & vs & Hks & Hvs & Hsize & Hlen & _).
  exists ks, vs. split_and!; assumption.
Defined.

(** C5 as stated fails: after [Put("a", 1)] and [Clear()] on a new map,
    [Size()] returns 0, and one key has been put and never removed. *)
Lemma Size_after_Clear_differs :
  ¬ Size_is_put_not_removed put_then_clear tt.
Proof.
  intros Hclaim.
  specialize (Hclaim (mkWorld New tt) eq_refl).
  vm_compute in Hclaim. discriminate.
Qed.

Lemma Size_counts_live_keys_witness :
  run example_calls (mkWorld New tt) =
    (Ret tt, mkWorld (mkMap (delete (Str "a") ab_items) sync.zero) tt) ∧
  Size (E:=string) (mkWorld (mkMap (delete (Str "a") ab_items) sync.zero) tt) =
    (Ret (Z.of_nat (size (live_keys example_calls))),
     mkWorld (mkMap (delete (Str "a") ab_items) sync.zero) tt).
Proof.
  assert (run example_calls (mkWorld New tt) =
            (Ret tt, mkWorld (mkMap (delete (Str "a") ab_items) sync.zero) tt))
    as Hrun by reflexivity.
  split; [exact Hrun|].
  apply (Size_counts_live_keys example_calls tt _ Hrun).
Defined.

(** *** The locking discipline and the compositions on the example *)

Lemma returning_call_restores_mutex_witness :
  call (E:=string) (OpRemove (Str "a")) ab_world =
    (Ret tt, with_items (delete (Str "a") ab_items) ab_world) ∧
  mu (this (with_items (delete (Str "a") ab_items) ab_world)) = mu (this ab_world).
Proof.
  assert (call (E:=string) (OpRemove (Str "a")) ab_world =
            (Ret tt, with_items (delete (Str "a") ab_items) ab_world))
    as Hcall by reflexivity.
  split; [exact Hcall|].
  apply (returning_call_restores_mutex _ _ _ Hcall).
Defined.

Lemma unlocked_call_never_blocks_witness :
  unlocked ab_counting ∧
  (call (OpComputeIfAbsent (Str "c") numbering) ab_counting).1 ≠ Blocked.
Proof.
  assert (unlocked ab_counting) as Hw by reflexivity.
  split; [exact Hw|].
  apply (unlocked_call_never_blocks _ _ Hw).
Defined.

Lemma write_locked_call_blocks_witness :
  write_locked ab_write_locked ∧
  call (OpComputeIfAbsent (Str "c") numbering) ab_write_locked =
    (Blocked, ab_write_locked).
Proof.
  assert (write_locked ab_write_locked) as Hw by reflexivity.
  split; [exact Hw|].
  apply (write_locked_call_blocks _ _ Hw).
Defined.

Lemma Range_panic_keeps_read_lock_witness :
  unlocked ab_counting ∧
  Range forwards failing_on_b ab_counting = (Panic "b", with_env 1 ab_read_locked) ∧
  Put (E:=string) (Str "c") (Int 3) (with_env 1 ab_read_locked) =
    (Blocked, with_env 1 ab_read_locked).
Proof.
  assert (unlocked ab_counting) as Hw by reflexivity.
  assert (Range forwards failing_on_b ab_counting =
            (Panic "b", with_env 1 ab_read_locked)) as Hpanic by reflexivity.
  split; [exact Hw|]. split; [exact Hpanic|].
  apply (Range_panic_keeps_read_lock _ _ _ _ _ Hw Hpanic).
Defined.

Lemma read_locked_reads_return_writes_block_witness :
  read_locked ab_read_locked ∧
  Get (E:=string) (Str "a") ab_read_locked = (Ret (Int 1, true), ab_read_locked) ∧
  ComputeIfAbsent (Str "c") numbering ab_read_locked =
    (Blocked, with_env 1 ab_read_locked).
Proof.
  assert (read_locked ab_read_locked) as Hw by (split; [reflexivity|simpl; lia]).
  split; [exact Hw|].
  destruct (read_locked_reads_return_writes_block (Str "a") (Int 3) forwards
              numbering ab_read_locked Hw) as (Hget & _).
  destruct (read_locked_reads_return_writes_block (Str "c") (Int 3) forwards
              numbering ab_read_locked Hw) as (_ & _ & _ & _ & _ & _ & _ & _ & Hcompute).
  split; [exact Hget|exact Hcompute].
Defined.

Lemma reads_keep_items_witness :
  writes (OpRange forwards failing_on_b) = false ∧
  items (this (call (OpRange forwards failing_on_b) ab_counting).2) = ab_items.
Proof.
  assert (writes (OpRange forwards failing_on_b) = false) as Ho by reflexivity.
  split; [exact Ho|].
  apply (reads_keep_items (OpRange forwards failing_on_b) ab_counting Ho).
Defined.

Lemma Size_after_Put_Remove_witness :
  unlocked ab_world ∧
  ∃ (present : bool) (size : Z),
    Contains (E:=string) (Str "c") ab_world = (Ret present, ab_world) ∧
    Size (E:=string) ab_world = (Ret size, ab_world) ∧
    (Put (E:=string) (Str "c") (Int 3);; Size) ab_world =
      (Ret (if present then size else (size + 1)%Z),
       with_items (<[Str "c" := Int 3]> ab_items) ab_world) ∧
    (Remove (E:=string) (Str "c");; Size) ab_world =
      (Ret (if present then (size - 1)%Z else size),
       with_items (delete (Str "c") ab_items) ab_world).
Proof.
  assert (unlocked ab_world) as Hw by reflexivity.
  split; [exact Hw|].
  apply (Size_after_Put_Remove (E:=string) (Str "c") (Int 3) ab_world Hw).
Defined.

Lemma empty_map_has_nothing_witness :
  unlocked (mkWorld (New (K:=any) (V:=any)) 0) ∧
  items (this (mkWorld (New (K:=any) (V:=any)) 0)) = ∅ ∧
  Range backwards failing_on_b (mkWorld New 0) = (Ret tt, mkWorld New 0) ∧
  Keys (E:=string) backwards (mkWorld (New (K:=any) (V:=any)) 0) =
    (Ret [], mkWorld New 0).
Proof.
  assert (unlocked (mkWorld (New (K:=any) (V:=any)) 0)) as Hw by reflexivity.
  assert (items (this (mkWorld (New (K:=any) (V:=any)) 0)) = ∅) as Hempty
    by reflexivity.
  split; [exact Hw|]. split; [exact Hempty|].
  destruct (empty_map_has_nothing backwards failing_on_b _ Hw Hempty)
    as (_ & Hkeys & _ & Hrange & _).
  split; [exact Hrange|exact Hkeys].
Defined.

Lemma Range_calls_bounded_witness :
  unlocked ab_counting ∧
  ∃ r final (size : Z),
    Range forwards (λ k v, recording (k, v) (failing_on_b k v))
      (with_env (0, []) ab_counting) = (r, final) ∧
    Size (E:=string) ab_counting = (Ret size, ab_counting) ∧
    (Z.of_nat (length (env final).2) ≤ size)%Z.
Proof.
  assert (unlocked ab_counting) as Hw by reflexivity.
  split; [exact Hw|].
  destruct (Range_calls_bounded forwards failing_on_b ab_counting Hw)
    as (r & final & size & Hrun & Hsize & Hbound & _).
  by exists r, final, size.
Defined.

(** *** The map over every key on the example *)

(** C1 as stated fails at a key with [key != key]: on the map
    [{"a": 1, "b": 2}], after [Put(NaN, 1)] the call [Get(NaN)] returns the
    zero value and [found = false]. *)
Lemma Put_then_Get_misses_NaN :
  ¬ Put_then_Get_finds (E:=string) nan_key (Int 1) ab_anykey.
Proof.
  intros [w' Hfinds].
  assert ((anykey.Put (E:=string) nan_key (Int 1);; anykey.Get nan_key) ab_anykey =
            (Ret (Nil, false),
             anykey.with_items (anykey.mkGomap ab_items [(NaN, Int 1)]) ab_anykey))
    as Hmisses by reflexivity.
  rewrite Hmisses in Hfinds. discriminate.
Qed.

Lemma Get_Put_self_equal_key_witness :
  anykey.unlocked ab_anykey ∧
  anykey.self_equal (anykey.Plain (Str "c") : example_key) = true ∧
  (anykey.Put (E:=string) (anykey.Plain (Str "c") : example_key) (Int 8);;
   anykey.Put (anykey.Plain (Str "c")) (Int 9);;
   anykey.Get (anykey.Plain (Str "c"))) ab_anykey =
    (Ret (Int 9, true),
     anykey.with_items (anykey.mkGomap (<[Str "c" := Int 9]> ab_items) []) ab_anykey).
Proof.
  assert (anykey.unlocked ab_anykey) as Hw by reflexivity.
  assert (anykey.self_equal (anykey.Plain (Str "c") : example_key) = true)
    as Hself by reflexivity.
  split; [exact Hw|]. split; [exact Hself|].
  destruct (Get_Put_self_equal_key (E:=string) (anykey.Plain (Str "c") : example_key)
              (Int 7) (Int 8) (Int 9) ab_anykey Hw) as (_ & Hfinds & _).
  destruct (Hfinds Hself) as (g1 & g2 & _ & _ & Hassign & Hlast).
  injection Hassign as <-. exact Hlast.
Defined.

Lemma call_panics_with_lock_held_witness :
  anykey.unlocked ab_anykey ∧
  anykey.hashed_key (E:=string) (U:=nat) (anykey.OpPut slice_key (Int 1)) =
    Some slice_key ∧
  (anykey.call (E:=string) (anykey.OpPut slice_key (Int 1)) ab_anykey).1 =
    Panic (anykey.HashOfUnhashable [1%Z]) ∧
  anykey.mu (anykey.this
    (anykey.call (E:=string) (anykey.OpPut slice_key (Int 1)) ab_anykey).2) =
    sync.mkRWMutex 0 true.
Proof.
  assert (anykey.unlocked ab_anykey) as Hw by reflexivity.
  assert (anykey.hashed_key (E:=string) (U:=nat) (anykey.OpPut slice_key (Int 1)) =
            Some slice_key) as Hkey by reflexivity.
  split; [exact Hw|]. split; [exact Hkey|].
  destruct (call_panics_with_lock_held (E:=string)
              (anykey.OpPut slice_key (Int 1)) ab_anykey)
    as (_ & Hheld & _ & Hpanics).
  pose proof (Hpanics [1%Z] Hw Hkey) as Hpanic.
  split; [exact Hpanic|]. apply (Hheld [1%Z] Hpanic).
Defined.


Lemma Values_lists_stored_values_any_witness :
  anykey.unlocked ab_anykey ∧
  ∃ vs, anykey.Values (E:=string) (X:=list Z) anykey.backwards ab_anykey =
          (Ret vs, ab_anykey) ∧
        ∀ value, value ∈ vs ↔
                 (∃ key, anykey.Get (E:=string) (X:=list Z) key ab_anykey =
                           (Ret (value, true), ab_anykey)) ∨
                 (∃ f, (f, value) ∈ anykey.irreflexive
                                       (anykey.items (anykey.this ab_anykey))).
Proof.
  assert (anykey.unlocked ab_anykey) as Hw by reflexivity.
  split; [exact Hw|].
  apply (Values_lists_stored_values_any (E:=string) (X:=list Z) anykey.backwards
           ab_anykey Hw).
Defined.

Lemma Put_Remove_round_trip_any_witness :
  anykey.unlocked ab_anykey ∧
  (anykey.Put (E:=string) (anykey.Plain (Str "c") : example_key) (Int 3);;
   anykey.Remove (anykey.Plain (Str "c"))) ab_anykey = (Ret true, ab_anykey) ∧
  (anykey.Put (E:=string) nan_key (Int 3);; anykey.Remove nan_key) ab_anykey =
    (Ret false,
     anykey.with_items (anykey.mkGomap ab_items [(NaN, Int 3)]) ab_anykey).
Proof.
  assert (anykey.unlocked ab_anykey) as Hw by reflexivity.
  split; [exact Hw|].
  destruct (Put_Remove_round_trip_any (E:=string)
              (anykey.Plain (Str "c") : example_key) (Int 3) ab_anykey Hw)
    as (Hback & _).
  destruct (Put_Remove_round_trip_any (E:=string) nan_key (Int 3) ab_anykey Hw)
    as (_ & _ & Hstays).
  split; [apply Hback; reflexivity|apply (Hstays NaN); reflexivity].
Defined.

Lemma Put_commutes_unless_equal_witness :
  anykey.unlocked ab_anykey ∧
  anykey.go_equal nan_key nan_key = false ∧
  ∃ g12 g21,
    (anykey.Put (E:=string) nan_key (Int 5);; anykey.Put nan_key (Int 3)) ab_anykey =
      (Ret (Int 3), anykey.with_items g12 ab_anykey) ∧
    (anykey.Put (E:=string) nan_key (Int 3);; anykey.Put nan_key (Int 5)) ab_anykey =
      (Ret (Int 5), anykey.with_items g21 ab_anykey) ∧
    anykey.same_entries g12 g21.
Proof.
  assert (anykey.unlocked ab_anykey) as Hw by reflexivity.
  assert (anykey.go_equal nan_key nan_key = false) as Hne by reflexivity.
  split; [exact Hw|]. split; [exact Hne|].
  destruct (Put_commutes_unless_equal (E:=string) nan_key nan_key (Int 5) (Int 3)
              ab_anykey Hw) as (Hcommute & _).
  apply Hcommute; [reflexivity|reflexivity|exact Hne].
Defined.

Lemma ComputeIfAbsent_computes_once_any_witness :
  anykey.unlocked ab_anykey ∧
  (anykey.ComputeIfAbsent nan_key numbering_any;;
   anykey.ComputeIfAbsent nan_key numbering_any) ab_anykey =
    (Ret (Int 1, true),
     anykey.with_env 2
       (anykey.with_items
          (anykey.mkGomap ab_items [(NaN, Int 0); (NaN, Int 1)]) ab_anykey)).
Proof.
  assert (anykey.unlocked ab_anykey) as Hw by reflexivity.
  split; [exact Hw|].
  destruct (ComputeIfAbsent_computes_once_any nan_key numbering_any numbering_any
              ab_anykey (Int 0) 1 Hw eq_refl eq_refl) as [_ Htwice].
  apply (Htwice NaN (Int 1) 2); reflexivity.
Defined.

Lemma ComputeIfAbsent_value_is_stored_any_witness :
  anykey.unlocked ab_anykey ∧
  anykey.ComputeIfAbsent nan_key numbering_any ab_anykey =
    (Ret (Int 0, true),
     anykey.with_env 1
       (anykey.with_items (anykey.mkGomap ab_items [(NaN, Int 0)]) ab_anykey)) ∧
  anykey.Get (E:=string) nan_key
      (anykey.with_env 1
         (anykey.with_items (anykey.mkGomap ab_items [(NaN, Int 0)]) ab_anykey)) =
    (Ret (Nil, false),
     anykey.with_env 1
       (anykey.with_items (anykey.mkGomap ab_items [(NaN, Int 0)]) ab_anykey)).
Proof.
  assert (anykey.unlocked ab_anykey) as Hw by reflexivity.
  assert (anykey.ComputeIfAbsent nan_key numbering_any ab_anykey =
            (Ret (Int 0, true),
             anykey.with_env 1
               (anykey.with_items (anykey.mkGomap ab_items [(NaN, Int 0)])
                  ab_anykey))) as Hcall by reflexivity.
  split; [exact Hw|]. split; [exact Hcall|].
  apply (ComputeIfAbsent_value_is_stored_any _ _ _ _ _ _ Hw Hcall).
Defined.

Lemma Range_visits_every_entry_witness :
  anykey.unlocked ab_anykey ∧
  (∀ k v u, (counting_any k v u).1 = Returns true) ∧
  ∃ u' calls,
    anykey.Range anykey.forwards (λ k v, recording (k, v) (counting_any k v))
      (anykey.with_env (0, []) ab_anykey) =
      (Ret tt, anykey.with_env (u', calls) ab_anykey) ∧
    calls.*1 ≡ₚ anykey.entries (anykey.items (anykey.this ab_anykey)) ∧
    NoDup (anykey.plain_keys calls.*1.*1).
Proof.
  assert (anykey.unlocked ab_anykey) as Hw by reflexivity.
  assert (∀ k v u, (counting_any k v u).1 = Returns true) as Halways
    by reflexivity.
  split; [exact Hw|]. split; [exact Halways|].
  destruct (Range_visits_every_entry anykey.forwards counting_any ab_anykey
              Hw Halways) as (u' & calls & Hrun & Hperm & Hnodup & _).
  by exists u', calls.
Defined.

End concurrentmap.
